(** * Window-based Least Significant Bits (W-LSB) encoding

    A shallow embedding of [src/common/wlsb.c] of the ROHC library and
    the verification of its specification.

    Conventions of the embedding.
    - [uint16_t] and [uint32_t] values and [int] sequence numbers are
      integers of [Z]; the range of an unsigned type is a predicate
      ([is_uint32]) assumed where the code depends on it.
    - [size_t] quantities (indices, the window width, bit counts) are
      natural numbers; the widths the library uses are far below the
      range where the [int] loop counters of the C code could wrap.
    - The heap-allocated array [wlsb->window] of [window_width] entries
      is a list; [window_width] is its length.  Reading a slot outside
      the array (undefined in C) yields "not in use", writing outside
      does nothing; every theorem keeps indices inside the array.
    - Functions mutating [struct c_wlsb] are state transformers; the
      out-parameter [bits_nr] of [c_get_k_wlsb] is passed in and
      returned explicitly.
    - An [assert] that fails aborts the program: such functions return
      [option]. Allocation is assumed to succeed. *)

From stdpp Require Import base list.
From Stdlib Require Import ZArith Lia.

Local Open Scope nat_scope.

(** ** Data model *)

(** Modelled from the spec: [struct c_window], one entry of the window.
    Its declaration is in [wlsb.h], which is not among the sources; the
    fields are the ones [wlsb.c] accesses, with the types of the data
    model of the specification. *)
Record c_window : Type := mk_c_window {
  sn : Z;          (* uint16_t sn *)
  value : Z;       (* uint32_t value *)
  is_used : bool   (* whether the entry is in use *)
}.

(** Modelled from the spec: [struct c_wlsb], the W-LSB object, declared
    in [wlsb.h] as well.  The field [window_width] is the length of
    [window]. *)
Record c_wlsb : Type := mk_c_wlsb {
  window : list c_window;  (* the array of window_width entries *)
  oldest : nat;
  next : nat;
  bits : nat;
  p : Z                    (* int32_t p *)
}.

Definition window_width (s : c_wlsb) : nat := length (window s).

Definition is_uint32 (v : Z) : Prop := (0 <= v <= 4294967295)%Z.

(** The entry produced by [calloc]/[bzero] and the loop of
    [c_create_wlsb]. *)
Definition zero_entry : c_window :=
  {| sn := 0; value := 0; is_used := false |}.

(** [s->window[j].is_used], [s->window[j].sn], [s->window[j].value]. *)
Definition used_at (win : list c_window) (j : nat) : bool :=
  match win !! j with
  | Some e => is_used e
  | None => false
  end.

(** [s->window[j].is_used = 0] *)
Definition clear_used (e : c_window) : c_window :=
  {| sn := sn e; value := value e; is_used := false |}.

(** ** c_create_wlsb *)

Definition c_create_wlsb (bits_ window_width_ : nat) (p_ : Z)
  : option c_wlsb :=
  if (0 <? bits_) && (0 <? window_width_) then
    Some {| window := replicate window_width_ zero_entry;
            oldest := 0;
            next := 0;
            bits := bits_;
            p := p_ |}
  else None.

(** ** c_add_wlsb *)

Definition c_add_wlsb (wlsb : c_wlsb) (sn_ : Z) (value_ : Z)
  : option c_wlsb :=
  if next wlsb <? window_width wlsb then
    let oldest' :=
      if used_at (window wlsb) (next wlsb)
      then (oldest wlsb + 1) mod window_width wlsb
      else oldest wlsb in
    Some {| window :=
              <[next wlsb :=
                  {| sn := sn_; value := value_; is_used := true |}]>
                (window wlsb);
            oldest := oldest';
            next := (next wlsb + 1) mod window_width wlsb;
            bits := bits wlsb;
            p := p wlsb |}
  else None.

(** ** c_ack_sn_wlsb and c_ack_remove *)

(** The test of the two search loops:
    [s->window[i].is_used && s->window[i].sn == sn]. *)
Definition entry_matches (sn_ : Z) (e : c_window) : bool :=
  is_used e && (sn e =? sn_)%Z.

Definition matches_at (win : list c_window) (sn_ : Z) (i : nat) : bool :=
  match win !! i with
  | Some e => entry_matches sn_ e
  | None => false
  end.

(** [for(i = lo; i < lo + n; i++) if(match) { found = 1; break; }]:
    the index of the first match, if any. *)
Fixpoint search_sn (win : list c_window) (sn_ : Z) (i n : nat)
  : option nat :=
  match n with
  | O => None
  | S n' =>
      if matches_at win sn_ i then Some i
      else search_sn win sn_ (S i) n'
  end.

(** Both search loops of [c_ack_sn_wlsb]: from [oldest] to the end of
    the array, then from the start up to [oldest]. *)
Definition ack_search (s : c_wlsb) (sn_ : Z) : option nat :=
  match search_sn (window s) sn_ (oldest s)
          (window_width s - oldest s) with
  | Some i => Some i
  | None => search_sn (window s) sn_ 0 (oldest s)
  end.

(** [for(j = lo; j < lo + n; j++) s->window[j].is_used = 0;] *)
Fixpoint clear_range (win : list c_window) (lo n : nat)
  : list c_window :=
  match n with
  | O => win
  | S n' => clear_range (alter clear_used lo win) (S lo) n'
  end.

(** The three-way removal at the start of [c_ack_remove]. *)
Definition ack_mark (s : c_wlsb) (index : nat) : list c_window :=
  if oldest s =? index then
    alter clear_used (oldest s) (window s)
  else if oldest s <? index then
    clear_range (window s) (oldest s) (index - oldest s)
  else
    clear_range
      (clear_range (window s) (oldest s) (window_width s - oldest s))
      0 index.

(** "fix the s->oldest pointer" *)
Definition ack_oldest (width index : nat) : nat :=
  if width - 1 <=? index then 0
  else if width <=? index then 0 else index.

(** One loop of "fix the s->next pointer":
    [for(j = lo; j < lo + n; j++)
       if(used) next = (next + 1) % width; else break;] *)
Fixpoint next_loop (win : list c_window) (width j n nxt : nat) : nat :=
  match n with
  | O => nxt
  | S n' =>
      if used_at win j
      then next_loop win width (S j) n' ((nxt + 1) mod width)
      else nxt
  end.

Definition ack_next (win : list c_window) (width oldest_ : nat) : nat :=
  let nxt := next_loop win width oldest_ (width - oldest_) oldest_ in
  next_loop win width 0 oldest_ nxt.

Definition c_ack_remove (s : c_wlsb) (index : nat) : c_wlsb :=
  let win := ack_mark s index in
  let width := window_width s in
  let oldest1 := ack_oldest width index in
  let next' := ack_next win width oldest1 in
  let oldest' := if width <=? oldest1 then 0 else oldest1 in
  {| window := win;
     oldest := oldest';
     next := next';
     bits := bits s;
     p := p s |}.

Definition c_ack_sn_wlsb (s : c_wlsb) (sn_ : Z) : c_wlsb :=
  match ack_search s sn_ with
  | Some i => c_ack_remove s i
  | None => s
  end.

(** ** The g function and c_get_k_wlsb *)

Section IntervalFunction.

(** The interval function [f] of [interval.h]: for a reference, a
    number of bits and a shift parameter, the bounds [(min, max)]. *)
Variable f : Z -> nat -> Z -> Z * Z.

(** [v >= min && v <= max] after [f(v_ref, k, p, &min, &max)] *)
Definition in_interval (v_ref v p_ : Z) (k : nat) : bool :=
  let '(min_, max_) := f v_ref k p_ in
  (min_ <=? v)%Z && (v <=? max_)%Z.

(** The loop of [g], entered at [k] with [n] iterations left. *)
Fixpoint g_loop (v_ref v p_ : Z) (k n : nat) : nat :=
  match n with
  | O => k
  | S n' =>
      if in_interval v_ref v p_ k then k
      else g_loop v_ref v p_ (S k) n'
  end.

Definition g (v_ref v p_ : Z) (bits_nr : nat) : nat :=
  g_loop v_ref v p_ 0 bits_nr.

(** The locals [valid], [min], [max] of [c_get_k_wlsb]. *)
Record scan_state : Type := mk_scan {
  sc_valid : bool;
  sc_min : Z;
  sc_max : Z
}.

Definition scan_init : scan_state :=
  {| sc_valid := false; sc_min := 4294967295; sc_max := 0 |}.

(** The body of the loop over the window entries. *)
Definition scan_entry (st : scan_state) (e : c_window) : scan_state :=
  if is_used e then
    {| sc_valid := true;
       sc_min := if (value e <? sc_min st)%Z then value e
                 else sc_min st;
       sc_max := if (sc_max st <? value e)%Z then value e
                 else sc_max st |}
  else st.

Definition scan_window (win : list c_window) : scan_state :=
  foldl scan_entry scan_init win.

(** [c_get_k_wlsb]: the result is the returned [is_success] and the
    content of [*bits_nr] after the call. *)
Definition c_get_k_wlsb (wlsb : c_wlsb) (value_ : Z) (bits_nr : nat)
  : bool * nat :=
  let st := scan_window (window wlsb) in
  if sc_valid st then
    let k1 := g (sc_min st) value_ (p wlsb) (bits wlsb) in
    let k2 := g (sc_max st) value_ (p wlsb) (bits wlsb) in
    (true, if k2 <? k1 then k1 else k2)
  else
    (false, bits_nr).

End IntervalFunction.

(** ** c_sum_wlsb and c_mean_wlsb *)

(** The value of an [int] after the conversion of an integer to it:
    the integer modulo 2^32 in the range of a 32-bit two's complement
    [int] (the conversion of an out-of-range [unsigned] is
    implementation-defined in C; this is what the supported compilers
    do). *)
Definition wrap_int32 (z : Z) : Z :=
  ((z + 2147483648) mod 4294967296 - 2147483648)%Z.

(** [sum += s->window[i].value] with [int sum] and a [uint32_t] value:
    the addition is done in [unsigned], modulo 2^32, and the result is
    converted back to [int]. *)
Definition add_to_int (sum value_ : Z) : Z :=
  wrap_int32 ((sum mod 4294967296 + value_) mod 4294967296)%Z.

(** The body of the loop of [c_sum_wlsb]. *)
Definition sum_entry (sum : Z) (e : c_window) : Z :=
  if is_used e then add_to_int sum (value e) else sum.

Definition c_sum_wlsb (s : c_wlsb) : Z :=
  foldl sum_entry 0%Z (window s).

(** The body of the loop of [c_mean_wlsb], on its locals [sum] and
    [num]; [num] counts slots of the window and stays far below the
    range of [int]. *)
Definition mean_entry (st : Z * nat) (e : c_window) : Z * nat :=
  if is_used e then (add_to_int st.1 (value e), S st.2) else st.

(** [return (num > 0 ? sum / num : 0);] the division of C truncates
    towards zero. *)
Definition c_mean_wlsb (s : c_wlsb) : Z :=
  let st := foldl mean_entry (0%Z, 0) (window s) in
  if 0 <? st.2 then (st.1 ÷ Z.of_nat st.2)%Z else 0%Z.

(** ** Calls of the compressor *)

(** The calls a compressor makes on one W-LSB object. *)
Inductive call : Type :=
| CallAdd (sn_ value_ : Z)     (* c_add_wlsb(wlsb, sn, value) *)
| CallGetK (value_ : Z)        (* c_get_k_wlsb(wlsb, value, &bits_nr) *)
| CallAck (sn_ : Z).           (* c_ack_sn_wlsb(wlsb, sn) *)

(** The memory the calls act on: the object and the caller's variable
    receiving [bits_nr]. *)
Record memory : Type := mk_memory {
  m_wlsb : c_wlsb;
  m_bits_nr : nat
}.

Section Calls.

Variable f : Z -> nat -> Z -> Z * Z.

(** [c_get_k_wlsb] takes the object through a pointer to [const]: it
    reads it and writes [*bits_nr] only when it succeeds. *)
Definition call_get_k (m : memory) (value_ : Z) : bool * memory :=
  let r := c_get_k_wlsb f (m_wlsb m) value_ (m_bits_nr m) in
  (r.1, {| m_wlsb := m_wlsb m; m_bits_nr := r.2 |}).

Definition run_call (m : memory) (c : call) : option memory :=
  match c with
  | CallAdd sn_ value_ =>
      match c_add_wlsb (m_wlsb m) sn_ value_ with
      | Some s' => Some {| m_wlsb := s'; m_bits_nr := m_bits_nr m |}
      | None => None
      end
  | CallGetK value_ => Some (call_get_k m value_).2
  | CallAck sn_ =>
      Some {| m_wlsb := c_ack_sn_wlsb (m_wlsb m) sn_;
              m_bits_nr := m_bits_nr m |}
  end.

Fixpoint run_calls (m : memory) (cs : list call) : option memory :=
  match cs with
  | [] => Some m
  | c :: cs' =>
      match run_call m c with
      | Some m' => run_calls m' cs'
      | None => None
      end
  end.

(** A freshly created object, then the calls. *)
Definition run_from_create (bits_ width_ : nat) (p_ : Z) (b0 : nat)
    (cs : list call) : option memory :=
  match c_create_wlsb bits_ width_ p_ with
  | Some s => run_calls {| m_wlsb := s; m_bits_nr := b0 |} cs
  | None => None
  end.

End Calls.

(** ** The body of c_get_k_wlsb, statement by statement *)

(** A statement acts on the memory and yields a result.  The memory has
    two separate objects: the one [wlsb] points to and the variable
    [bits_nr] points to (the caller does not pass a pointer into the
    W-LSB object itself). *)
Definition prog (A : Type) : Type := memory → A * memory.

#[global] Instance prog_ret : MRet prog := λ A a m, (a, m).

#[global] Instance prog_bind : MBind prog :=
  λ A B k c m, let r := c m in k r.1 r.2.

(** The accesses to memory the body makes: the reads of
    [wlsb->window_width], [wlsb->window[i].is_used],
    [wlsb->window[i].value], [wlsb->p] and [wlsb->bits], and the write
    [*bits_nr = k]. *)
Definition load_window_width : prog nat :=
  λ m, (window_width (m_wlsb m), m).

Definition load_is_used (i : nat) : prog bool :=
  λ m, (used_at (window (m_wlsb m)) i, m).

Definition load_value (i : nat) : prog Z :=
  λ m, (match window (m_wlsb m) !! i with
        | Some e => value e
        | None => 0%Z
        end, m).

Definition load_p : prog Z := λ m, (p (m_wlsb m), m).

Definition load_bits : prog nat := λ m, (bits (m_wlsb m), m).

Definition store_bits_nr (k : nat) : prog unit :=
  λ m, (tt, {| m_wlsb := m_wlsb m; m_bits_nr := k |}).

(** A write into the object, which the body of [c_get_k_wlsb] never
    makes; it is here to state what the body does not do. *)
Definition store_is_used (i : nat) (b : bool) : prog unit :=
  λ m, (tt,
        {| m_wlsb :=
             {| window :=
                  alter (λ e, {| sn := sn e; value := value e;
                                 is_used := b |}) i (window (m_wlsb m));
                oldest := oldest (m_wlsb m);
                next := next (m_wlsb m);
                bits := bits (m_wlsb m);
                p := p (m_wlsb m) |};
           m_bits_nr := m_bits_nr m |}).

(** The body of the loop over the window: skip the entry when it is not
    in use, else set [valid] and update [min] and [max]. *)
Definition scan_step (i : nat) (st : scan_state) : prog scan_state :=
  used ← load_is_used i;
  if negb used then mret st
  else
    v_min ← load_value i;
    let min' := if (v_min <? sc_min st)%Z then v_min else sc_min st in
    v_max ← load_value i;
    let max' := if (sc_max st <? v_max)%Z then v_max else sc_max st in
    mret {| sc_valid := true; sc_min := min'; sc_max := max' |}.

(** [for(entry = ..; entry < wlsb->window_width; entry++)]: the test
    reads the width at every turn; [fuel] bounds the number of turns. *)
Fixpoint scan_loop (fuel i : nat) (st : scan_state) : prog scan_state :=
  match fuel with
  | O => mret st
  | S fuel' =>
      width ← load_window_width;
      if i <? width then
        st' ← scan_step i st;
        scan_loop fuel' (S i) st'
      else mret st
  end.

Section GetKProgram.

Variable f : Z -> nat -> Z -> Z * Z.

(** The whole body; the loop is given as many turns as the width read
    on entry. *)
Definition c_get_k_wlsb_prog (value_ : Z) : prog bool :=
  width ← load_window_width;
  st ← scan_loop width 0 scan_init;
  if sc_valid st then
    p1 ← load_p;
    b1 ← load_bits;
    let k1 := g f (sc_min st) value_ p1 b1 in
    p2 ← load_p;
    b2 ← load_bits;
    let k2 := g f (sc_max st) value_ p2 b2 in
    store_bits_nr (if k2 <? k1 then k1 else k2);;
    mret true
  else mret false.

End GetKProgram.

(** A statement that leaves the W-LSB object as it found it. *)
Definition keeps_object {A : Type} (c : prog A) : Prop :=
  ∀ m, m_wlsb (c m).2 = m_wlsb m.

(** ** Notions of the specification *)

(** The indices stay inside the window. *)
Definition wf_wlsb (s : c_wlsb) : Prop :=
  oldest s < window_width s ∧ next s < window_width s.

(** Every in-use entry holds a 32-bit unsigned value. *)
Definition uint32_window (win : list c_window) : Prop :=
  ∀ e, e ∈ win → is_used e = true → is_uint32 (value e).

Definition has_used (win : list c_window) : Prop :=
  ∃ e, e ∈ win ∧ is_used e = true.

(** The number of in-use entries. *)
Definition count_used (win : list c_window) : nat :=
  length (List.filter is_used win).

(** [m] is the minimum (maximum) of the values of the in-use entries. *)
Definition min_of_used (win : list c_window) (m : Z) : Prop :=
  (∃ e, e ∈ win ∧ is_used e = true ∧ value e = m) ∧
  (∀ e, e ∈ win → is_used e = true → (m <= value e)%Z).

Definition max_of_used (win : list c_window) (m : Z) : Prop :=
  (∃ e, e ∈ win ∧ is_used e = true ∧ value e = m) ∧
  (∀ e, e ∈ win → is_used e = true → (value e <= m)%Z).

(** [k] is what trying 0, 1, 2, ... and stopping at the first
    containment gives: nothing below [k] contains [v], and [k] is below
    [max_bits] only when the interval for [k] contains [v]. *)
Definition first_fit (f : Z -> nat -> Z -> Z * Z)
    (v_ref v p_ : Z) (max_bits k : nat) : Prop :=
  k ≤ max_bits ∧
  (∀ j, j < k → in_interval f v_ref v p_ j = false) ∧
  (k < max_bits → in_interval f v_ref v p_ k = true).

(** Slot [j] lies on the way from [oldest_] (included) to [index]
    (excluded), walking forward circularly. *)
Definition on_the_way (oldest_ index j : nat) : Prop :=
  (oldest_ ≤ j ∧ j < index) ∨
  (index < oldest_ ∧ (oldest_ ≤ j ∨ j < index)).

(** The first match of the scan from [oldest], wrapping through the
    whole buffer, is at slot [index]. *)
Definition first_match (s : c_wlsb) (sn_ : Z) (index : nat) : Prop :=
  index < window_width s ∧
  matches_at (window s) sn_ index = true ∧
  (∀ j, j < window_width s → on_the_way (oldest s) index j →
        matches_at (window s) sn_ j = false).

(** No in-use entry carries the sequence number. *)
Definition no_match (s : c_wlsb) (sn_ : Z) : Prop :=
  ∀ e, e ∈ window s → is_used e = true → sn e ≠ sn_.

(** The walk of the specification for [next]: from [j], forward
    circularly over in-use slots, at most [n] of them; the first slot
    not in use is the result. *)
Fixpoint walk_used (win : list c_window) (width j n : nat) : nat :=
  match n with
  | O => j
  | S n' =>
      if used_at win j then walk_used win width ((j + 1) mod width) n'
      else j
  end.

(** After [width] in-use slots the walk is back at [oldest_]. *)
Definition spec_next (win : list c_window) (oldest_ : nat) : nat :=
  walk_used win (length win) oldest_ (length win).

(** The slot reached from [oldest] after [d] steps forward. *)
Definition slot_after (s : c_wlsb) (d : nat) : nat :=
  (oldest s + d) mod window_width s.

(** The in-use entries form one circular run starting at [oldest]:
    scanning forward from [oldest], once a slot is not in use no later
    slot is in use. *)
Definition contiguous_run (s : c_wlsb) : Prop :=
  ∀ d1 d2, d1 < d2 → d2 < window_width s →
    used_at (window s) (slot_after s d1) = false →
    used_at (window s) (slot_after s d2) = false.


(** The insertions of a run pass 32-bit unsigned values, as the type
    of the parameter of [c_add_wlsb] demands. *)
Definition call_uint32 (c : call) : Prop :=
  match c with
  | CallAdd _ value_ => is_uint32 value_
  | _ => True
  end.

(** ** The circular run *)

(** The number of steps forward from slot [o] to slot [j] in a ring of
    [width] slots, and the slot reached from [o] after [d] steps. *)
Definition ring_dist (width o j : nat) : nat :=
  if o <=? j then j - o else j + width - o.

Definition ring_slot (width o d : nat) : nat :=
  if o + d <? width then o + d else o + d - width.

(** The in-use slots are the [n] slots starting at [oldest], and [next]
    is the slot after them. *)
Definition run_inv (s : c_wlsb) (n : nat) : Prop :=
  wf_wlsb s ∧
  n ≤ window_width s ∧
  (∀ j, j < window_width s →
        (used_at (window s) j = true ↔
         ring_dist (window_width s) (oldest s) j < n)) ∧
  next s = ring_slot (window_width s) (oldest s) n.

(** An acknowledgement is plain when its scan finds nothing, or finds
    its first match neither at [oldest] nor at the last slot. *)
Definition ack_is_plain (s : c_wlsb) (sn_ : Z) : bool :=
  match ack_search s sn_ with
  | None => true
  | Some i => negb (i =? oldest s) && negb (i =? window_width s - 1)
  end.

Definition call_is_plain (s : c_wlsb) (c : call) : bool :=
  match c with
  | CallAck sn_ => ack_is_plain s sn_
  | _ => true
  end.

(** Every acknowledgement of the run is plain in the state it is made
    in. *)
Fixpoint plain_calls (f : Z -> nat -> Z -> Z * Z) (m : memory)
    (cs : list call) : bool :=
  match cs with
  | [] => true
  | c :: cs' =>
      call_is_plain (m_wlsb m) c &&
      match run_call f m c with
      | Some m' => plain_calls f m' cs'
      | None => false
      end
  end.

Definition plain_from_create (f : Z -> nat -> Z -> Z * Z)
    (bits_ width_ : nat) (p_ : Z) (b0 : nat) (cs : list call) : bool :=
  match c_create_wlsb bits_ width_ p_ with
  | Some s => plain_calls f {| m_wlsb := s; m_bits_nr := b0 |} cs
  | None => false
  end.

(** ** Notions for the other properties *)

(** An in-use entry. *)
Definition entry (sn_ value_ : Z) : c_window :=
  {| sn := sn_; value := value_; is_used := true |}.


(** The sum, as an integer, of the values of the in-use entries. *)
Definition sum_used (win : list c_window) : Z :=
  foldr (λ e acc, if is_used e then (value e + acc)%Z else acc) 0%Z win.

(** The calls inserting the pairs (sequence number, value) of a list,
    in order. *)
Definition add_calls (l : list (Z * Z)) : list call :=
  (λ x, CallAdd x.1 x.2) <$> l.

(** The window of [C] slots holds the last [C] pairs of [l] and nothing
    else: the pair inserted in position [i], when it is among the last
    [C], sits in use in slot [i mod C]; the slots no insertion reached
    are as created; every in-use entry is one of those pairs; [next] and
    [oldest] are where the insertions left them. *)
Definition holds_last (C : nat) (l : list (Z * Z)) (s : c_wlsb) : Prop :=
  window_width s = C ∧
  next s = length l mod C ∧
  oldest s = (if length l <=? C then 0 else length l mod C) ∧
  (∀ i x, l !! i = Some x → length l ≤ i + C →
          window s !! (i mod C) = Some (entry x.1 x.2)) ∧
  (∀ j, length l ≤ j → j < C → window s !! j = Some zero_entry) ∧
  (∀ j e, window s !! j = Some e → is_used e = true →
          ∃ i x, l !! i = Some x ∧ length l ≤ i + C ∧
                 j = i mod C ∧ e = entry x.1 x.2).

(** Below [max_bits] the intervals of [f] around [v_ref] are nested as
    far as [v] is concerned: when [k] bits contain [v], [k + 1] bits
    contain it. *)
Definition nested_intervals (f : Z -> nat -> Z -> Z * Z)
    (v_ref v p_ : Z) (max_bits : nat) : Prop :=
  ∀ k, S k < max_bits →
    in_interval f v_ref v p_ k = true →
    in_interval f v_ref v p_ (S k) = true.

(** ** A sample interval function and sample windows *)

(** Modelled from the spec: the interval function [f] of [interval.h],
    whose defining file is not among the sources.  The specification
    fixes its contract only (an interval near the reference, offset by
    [p], growing with [k], arithmetic modulo 2^32); this instance is the
    interval of RFC 3095, 4.5.1, and serves to evaluate the theorems,
    which hold for every interval function, on concrete windows. *)
Definition f_rfc (v_ref : Z) (k : nat) (p_ : Z) : Z * Z :=
  (((v_ref - p_) mod 4294967296)%Z,
   ((v_ref + (2 ^ Z.of_nat k - 1) - p_) mod 4294967296)%Z).

(** A window of three slots holding the values 100, 101 and 102. *)
Definition wlsb_full3 : c_wlsb :=
  {| window := [entry 1 100; entry 2 101; entry 3 102];
     oldest := 0; next := 0; bits := 4; p := 0 |}.

(** The same window after one more insertion: it has wrapped. *)
Definition wlsb_wrapped3 : c_wlsb :=
  {| window := [entry 4 103; entry 2 101; entry 3 102];
     oldest := 1; next := 1; bits := 4; p := 0 |}.

(** A window of three slots with no entry in use. *)
Definition wlsb_empty3 : c_wlsb :=
  {| window := [zero_entry; zero_entry; zero_entry];
     oldest := 0; next := 0; bits := 4; p := 0 |}.

(** A window of five slots, three of them in use. *)
Definition wlsb_stats5 : c_wlsb :=
  {| window := [entry 1 10; entry 2 20; entry 3 30;
                zero_entry; zero_entry];
     oldest := 0; next := 3; bits := 4; p := 0 |}.

(** A window of three slots with one entry in use. *)
Definition wlsb_single3 : c_wlsb :=
  {| window := [entry 7 500; zero_entry; zero_entry];
     oldest := 0; next := 1; bits := 4; p := 0 |}.

(** * Verification *)

(** ** The g-search *)

Section SearchProofs.

Variable f : Z -> nat -> Z -> Z * Z.

Lemma g_loop_spec v_ref v p_ n : ∀ k,
  k ≤ g_loop f v_ref v p_ k n ≤ k + n ∧
  (∀ j, k ≤ j → j < g_loop f v_ref v p_ k n →
        in_interval f v_ref v p_ j = false) ∧
  (g_loop f v_ref v p_ k n < k + n →
   in_interval f v_ref v p_ (g_loop f v_ref v p_ k n) = true).
Proof.
  induction n as [|n IH]; intros k; simpl.
  - repeat split; intros; lia.
  - destruct (in_interval f v_ref v p_ k) eqn:Hk.
    + repeat split; intros; try lia. exact Hk.
    + destruct (IH (S k)) as (Hb & Hlow & Hhit).
      repeat split; try lia.
      * intros j Hj1 Hj2.
        destruct (decide (j = k)) as [->|Hne]; [exact Hk|].
        apply Hlow; lia.
      * intros Hlt. apply Hhit. lia.
Qed.

Lemma g_first_fit v_ref v p_ max_bits :
  first_fit f v_ref v p_ max_bits (g f v_ref v p_ max_bits).
Proof.
  unfold first_fit, g.
  destruct (g_loop_spec v_ref v p_ max_bits 0) as (Hb & Hlow & Hhit).
  repeat split.
  - lia.
  - intros j Hj. apply Hlow; lia.
  - intros Hlt. apply Hhit. lia.
Qed.

Lemma g_saturates v_ref v p_ max_bits :
  (∀ k, k < max_bits → in_interval f v_ref v p_ k = false) →
  g f v_ref v p_ max_bits = max_bits.
Proof.
  intros Hnone.
  destruct (g_first_fit v_ref v p_ max_bits) as (Hle & _ & Hhit).
  destruct (decide (g f v_ref v p_ max_bits < max_bits)) as [Hlt|]; [|lia].
  rewrite Hnone in Hhit by exact Hlt.
  specialize (Hhit Hlt). discriminate.
Qed.

End SearchProofs.

(** ** The scan of the window *)

Lemma scan_entry_valid st e :
  sc_valid (scan_entry st e) = sc_valid st || is_used e.
Proof.
  unfold scan_entry. destruct (is_used e); simpl.
  - by rewrite orb_true_r.
  - by rewrite orb_false_r.
Qed.

Lemma foldl_scan_valid win : ∀ st,
  sc_valid (foldl scan_entry st win) = true ↔
  sc_valid st = true ∨ has_used win.
Proof.
  induction win as [|e win IH]; intros st; simpl.
  - split; [by left|]. intros [H|(e & He & _)]; [done|].
    by apply elem_of_nil in He.
  - rewrite IH, scan_entry_valid, orb_true_iff. split.
    + intros [[H|H]|(e' & He' & Hu)].
      * by left.
      * right. exists e. split; [left|done].
      * right. exists e'. split; [by right|done].
    + intros [H|(e' & He' & Hu)].
      * left. by left.
      * apply elem_of_cons in He' as [->|He'].
        -- left. by right.
        -- right. by exists e'.
Qed.

Lemma foldl_scan_min win : ∀ st,
  (sc_min (foldl scan_entry st win) <= sc_min st)%Z ∧
  (∀ e, e ∈ win → is_used e = true →
        (sc_min (foldl scan_entry st win) <= value e)%Z) ∧
  (sc_min (foldl scan_entry st win) = sc_min st ∨
   ∃ e, e ∈ win ∧ is_used e = true ∧
        value e = sc_min (foldl scan_entry st win)).
Proof.
  induction win as [|e win IH]; intros st; simpl.
  - split; [lia|]. split; [|by left].
    intros e He. by apply elem_of_nil in He.
  - destruct (IH (scan_entry st e)) as (Hle & Hall & Hex).
    assert (Hstep : (sc_min (scan_entry st e) <= sc_min st)%Z ∧
                    (is_used e = true →
                     (sc_min (scan_entry st e) <= value e)%Z) ∧
                    (sc_min (scan_entry st e) = sc_min st ∨
                     (is_used e = true ∧
                      value e = sc_min (scan_entry st e)))).
    { unfold scan_entry. destruct (is_used e); simpl.
      - destruct (Z.ltb_spec (value e) (sc_min st)).
        + split; [lia|]. split; [lia|]. by right.
        + split; [lia|]. split; [lia|]. by left.
      - split; [lia|]. split; [done|]. by left. }
    destruct Hstep as (Hs1 & Hs2 & Hs3).
    split; [lia|]. split.
    + intros e' He' Hu. apply elem_of_cons in He' as [->|He'].
      * specialize (Hs2 Hu). lia.
      * by apply Hall.
    + destruct Hex as [Heq|(e' & He' & Hu & Hv)].
      * destruct Hs3 as [Hs3|[Hu Hv]].
        -- left. lia.
        -- right. exists e. split; [left|]. split; [done|]. lia.
      * right. exists e'. split; [by right|]. done.
Qed.

Lemma foldl_scan_max win : ∀ st,
  (sc_max st <= sc_max (foldl scan_entry st win))%Z ∧
  (∀ e, e ∈ win → is_used e = true →
        (value e <= sc_max (foldl scan_entry st win))%Z) ∧
  (sc_max (foldl scan_entry st win) = sc_max st ∨
   ∃ e, e ∈ win ∧ is_used e = true ∧
        value e = sc_max (foldl scan_entry st win)).
Proof.
  induction win as [|e win IH]; intros st; simpl.
  - split; [lia|]. split; [|by left].
    intros e He. by apply elem_of_nil in He.
  - destruct (IH (scan_entry st e)) as (Hle & Hall & Hex).
    assert (Hstep : (sc_max st <= sc_max (scan_entry st e))%Z ∧
                    (is_used e = true →
                     (value e <= sc_max (scan_entry st e))%Z) ∧
                    (sc_max (scan_entry st e) = sc_max st ∨
                     (is_used e = true ∧
                      value e = sc_max (scan_entry st e)))).
    { unfold scan_entry. destruct (is_used e); simpl.
      - destruct (Z.ltb_spec (sc_max st) (value e)).
        + split; [lia|]. split; [lia|]. by right.
        + split; [lia|]. split; [lia|]. by left.
      - split; [lia|]. split; [done|]. by left. }
    destruct Hstep as (Hs1 & Hs2 & Hs3).
    split; [lia|]. split.
    + intros e' He' Hu. apply elem_of_cons in He' as [->|He'].
      * specialize (Hs2 Hu). lia.
      * by apply Hall.
    + destruct Hex as [Heq|(e' & He' & Hu & Hv)].
      * destruct Hs3 as [Hs3|[Hu Hv]].
        -- left. lia.
        -- right. exists e. split; [left|]. split; [done|]. lia.
      * right. exists e'. split; [by right|]. done.
Qed.

Lemma scan_window_valid win :
  sc_valid (scan_window win) = true ↔ has_used win.
Proof.
  unfold scan_window. rewrite foldl_scan_valid. simpl.
  split; [intros [H|H]; [done|exact H]|by right].
Qed.

Lemma scan_window_min win :
  uint32_window win → has_used win →
  min_of_used win (sc_min (scan_window win)).
Proof.
  intros Hrange (e0 & He0 & Hu0). unfold scan_window.
  destruct (foldl_scan_min win scan_init) as (Hle & Hall & Hex).
  split; [|exact Hall].
  destruct Hex as [Heq|Hex]; [|exact Hex].
  exists e0. split; [done|]. split; [done|].
  specialize (Hall e0 He0 Hu0). specialize (Hrange e0 He0 Hu0).
  unfold is_uint32 in Hrange. simpl in *. lia.
Qed.

Lemma scan_window_max win :
  uint32_window win → has_used win →
  max_of_used win (sc_max (scan_window win)).
Proof.
  intros Hrange (e0 & He0 & Hu0). unfold scan_window.
  destruct (foldl_scan_max win scan_init) as (Hle & Hall & Hex).
  split; [|exact Hall].
  destruct Hex as [Heq|Hex]; [|exact Hex].
  exists e0. split; [done|]. split; [done|].
  specialize (Hall e0 He0 Hu0). specialize (Hrange e0 He0 Hu0).
  unfold is_uint32 in Hrange. simpl in *. lia.
Qed.

(** ** The values of the window stay 32-bit *)

Lemma uint32_window_create bits_ width_ p_ s :
  c_create_wlsb bits_ width_ p_ = Some s → uint32_window (window s).
Proof.
  unfold c_create_wlsb.
  destruct ((0 <? bits_) && (0 <? width_)); [|done].
  intros [= <-] e He. simpl in He.
  apply elem_of_replicate_inv in He as ->. done.
Qed.

Lemma uint32_window_add s sn_ value_ s' :
  is_uint32 value_ →
  uint32_window (window s) →
  c_add_wlsb s sn_ value_ = Some s' →
  uint32_window (window s').
Proof.
  intros Hv Hwin. unfold c_add_wlsb.
  destruct (next s <? window_width s); [|done].
  intros [= <-] e He Hu. simpl in He.
  apply list_elem_of_lookup in He as [j Hj].
  destruct (decide (j = next s)) as [->|Hne].
  - destruct (decide (next s < length (window s))) as [Hlt|Hge].
    + rewrite list_lookup_insert_eq in Hj by done.
      by injection Hj as <-.
    + rewrite list_insert_ge in Hj by lia.
      apply lookup_lt_Some in Hj. lia.
  - rewrite list_lookup_insert_ne in Hj by done.
    apply (Hwin e); [by eapply list_elem_of_lookup_2|done].
Qed.

Lemma uint32_window_alter win i :
  uint32_window win → uint32_window (alter clear_used i win).
Proof.
  intros Hwin e He Hu.
  apply list_elem_of_lookup in He as [j Hj].
  destruct (decide (j = i)) as [->|Hne].
  - rewrite list_lookup_alter_eq in Hj.
    destruct (win !! i) as [e0|]; [|done].
    injection Hj as <-. done.
  - rewrite list_lookup_alter_ne in Hj by done.
    apply (Hwin e); [by eapply list_elem_of_lookup_2|done].
Qed.

Lemma uint32_window_clear_range n : ∀ win lo,
  uint32_window win → uint32_window (clear_range win lo n).
Proof.
  induction n as [|n IH]; intros win lo Hwin; simpl; [done|].
  by apply IH, uint32_window_alter.
Qed.

Lemma uint32_window_ack s sn_ :
  uint32_window (window s) →
  uint32_window (window (c_ack_sn_wlsb s sn_)).
Proof.
  intros Hwin. unfold c_ack_sn_wlsb.
  destruct (ack_search s sn_) as [i|]; [|done].
  simpl. unfold ack_mark.
  destruct (oldest s =? i); [by apply uint32_window_alter|].
  destruct (oldest s <? i);
    by repeat apply uint32_window_clear_range.
Qed.

(** From creation on, through calls that insert 32-bit values, every
    in-use entry holds a 32-bit value. *)
Lemma uint32_window_run f cs : ∀ m m',
  Forall call_uint32 cs →
  uint32_window (window (m_wlsb m)) →
  run_calls f m cs = Some m' →
  uint32_window (window (m_wlsb m')).
Proof.
  induction cs as [|c cs IH]; intros m m' Hcs Hwin; simpl.
  - by intros [= <-].
  - apply Forall_cons in Hcs as [Hc Hcs].
    destruct c as [sn_ value_|value_|sn_]; simpl in *.
    + destruct (c_add_wlsb (m_wlsb m) sn_ value_) as [s'|] eqn:Ha;
        [|done].
      apply IH; [done|]. simpl. by eapply uint32_window_add.
    + by apply IH.
    + apply IH; [done|]. simpl. by apply uint32_window_ack.
Qed.

(** ** c_get_k_wlsb *)

Lemma c_get_k_wlsb_used f s v b :
  has_used (window s) →
  c_get_k_wlsb f s v b =
    (true, Nat.max (g f (sc_min (scan_window (window s))) v (p s) (bits s))
                   (g f (sc_max (scan_window (window s))) v (p s) (bits s))).
Proof.
  intros Hu. unfold c_get_k_wlsb.
  apply scan_window_valid in Hu. rewrite Hu. f_equal.
  destruct (Nat.ltb_spec
              (g f (sc_max (scan_window (window s))) v (p s) (bits s))
              (g f (sc_min (scan_window (window s))) v (p s) (bits s)));
    lia.
Qed.

Lemma c_get_k_wlsb_unused f s v b :
  ¬ has_used (window s) → c_get_k_wlsb f s v b = (false, b).
Proof.
  intros Hu. unfold c_get_k_wlsb.
  destruct (sc_valid (scan_window (window s))) eqn:Hv; [|done].
  apply scan_window_valid in Hv. contradiction.
Qed.

Lemma create_not_used bits_ width_ p_ s :
  c_create_wlsb bits_ width_ p_ = Some s → ¬ has_used (window s).
Proof.
  unfold c_create_wlsb.
  destruct ((0 <? bits_) && (0 <? width_)); [|done].
  intros [= <-] (e & He & Hu). simpl in He.
  apply elem_of_replicate in He as [-> _]. done.
Qed.

(** C1. With at least one entry in use, [c_get_k_wlsb] succeeds and
    stores the greater of two bit counts: the ones the g-search (trying
    k = 0, 1, 2, ... below [bits] and stopping at the first interval of
    [f] that contains the value) finds for the minimum and for the
    maximum of the values of the in-use entries. *)
Theorem c_get_k_wlsb_minimal_bits f s v b :
  uint32_window (window s) →
  has_used (window s) →
  ∃ min_ref max_ref k1 k2,
    min_of_used (window s) min_ref ∧
    max_of_used (window s) max_ref ∧
    first_fit f min_ref v (p s) (bits s) k1 ∧
    first_fit f max_ref v (p s) (bits s) k2 ∧
    c_get_k_wlsb f s v b = (true, Nat.max k1 k2).
Proof.
  intros Hrange Hu.
  exists (sc_min (scan_window (window s))),
         (sc_max (scan_window (window s))).
  eexists _, _.
  split; [by apply scan_window_min|].
  split; [by apply scan_window_max|].
  split; [apply g_first_fit|].
  split; [apply g_first_fit|].
  by apply c_get_k_wlsb_used.
Qed.

(** C2. With at least one entry in use, when no k below [bits] makes
    the value fall inside the interval of [f], neither for the minimum
    nor for the maximum of the in-use values, [c_get_k_wlsb] still
    succeeds and stores [bits]. *)
Theorem c_get_k_wlsb_saturates f s v b :
  uint32_window (window s) →
  has_used (window s) →
  (∀ r k, min_of_used (window s) r ∨ max_of_used (window s) r →
          k < bits s → in_interval f r v (p s) k = false) →
  c_get_k_wlsb f s v b = (true, bits s).
Proof.
  intros Hrange Hu Hnone.
  rewrite c_get_k_wlsb_used by exact Hu.
  rewrite !g_saturates.
  - by rewrite Nat.max_id.
  - intros k. apply Hnone. right. by apply scan_window_max.
  - intros k. apply Hnone. left. by apply scan_window_min.
Qed.

(** C8. When no entry of the window is in use, in particular on an
    object just created, [c_get_k_wlsb] returns failure and leaves
    [*bits_nr] as it was. *)
Theorem c_get_k_wlsb_empty_window f v b :
  (∀ s, ¬ has_used (window s) → c_get_k_wlsb f s v b = (false, b)) ∧
  (∀ bits_ width_ p_ s, c_create_wlsb bits_ width_ p_ = Some s →
     c_get_k_wlsb f s v b = (false, b)).
Proof.
  split.
  - intros s. apply c_get_k_wlsb_unused.
  - intros bits_ width_ p_ s Hc. apply c_get_k_wlsb_unused.
    by eapply create_not_used.
Qed.

(** ** The body of c_get_k_wlsb on the memory *)

Lemma keeps_ret {A : Type} (a : A) : keeps_object (mret a : prog A).
Proof. by intros m. Qed.

Lemma keeps_bind {A B : Type} (c : prog A) (k : A → prog B) :
  keeps_object c → (∀ a, keeps_object (k a)) →
  keeps_object (c ≫= k).
Proof.
  intros Hc Hk m. unfold mbind, prog_bind. simpl.
  by rewrite Hk, Hc.
Qed.

Lemma keeps_load_window_width : keeps_object load_window_width.
Proof. by intros m. Qed.

Lemma keeps_load_is_used i : keeps_object (load_is_used i).
Proof. by intros m. Qed.

Lemma keeps_load_value i : keeps_object (load_value i).
Proof. by intros m. Qed.

Lemma keeps_load_p : keeps_object load_p.
Proof. by intros m. Qed.

Lemma keeps_load_bits : keeps_object load_bits.
Proof. by intros m. Qed.

Lemma keeps_store_bits_nr k : keeps_object (store_bits_nr k).
Proof. by intros m. Qed.

Create HintDb keeps discriminated.

#[local] Hint Resolve keeps_ret keeps_load_window_width keeps_load_is_used
  keeps_load_value keeps_load_p keeps_load_bits keeps_store_bits_nr
  : keeps.

Ltac keeps_step :=
  first [ apply keeps_bind; [|intros ?]
        | match goal with
          | |- keeps_object (if ?b then _ else _) => destruct b
          end
        | solve [auto with keeps] ].

Lemma keeps_scan_step i st : keeps_object (scan_step i st).
Proof. unfold scan_step. repeat keeps_step. Qed.

Lemma keeps_scan_loop fuel : ∀ i st, keeps_object (scan_loop fuel i st).
Proof.
  induction fuel as [|fuel IH]; intros i st; simpl.
  - apply keeps_ret.
  - apply keeps_bind; [apply keeps_load_window_width|]. intros width.
    destruct (i <? width); [|apply keeps_ret].
    apply keeps_bind; [apply keeps_scan_step|]. intros st'. apply IH.
Qed.

Lemma keeps_c_get_k_wlsb_prog f v : keeps_object (c_get_k_wlsb_prog f v).
Proof.
  unfold c_get_k_wlsb_prog.
  apply keeps_bind; [apply keeps_load_window_width|]. intros width.
  apply keeps_bind; [apply keeps_scan_loop|]. intros st.
  repeat keeps_step.
Qed.

(** The predicate tells the body from one that writes the object. *)
Example store_is_used_changes_object :
  ¬ keeps_object (store_is_used 0 false).
Proof.
  intros Hk.
  specialize (Hk {| m_wlsb := wlsb_full3; m_bits_nr := 0 |}).
  discriminate Hk.
Qed.

Lemma scan_step_run i st m e :
  window (m_wlsb m) !! i = Some e →
  scan_step i st m = (scan_entry st e, m).
Proof.
  intros He. unfold scan_step, scan_entry, mbind, prog_bind, mret,
    prog_ret, load_is_used, load_value, used_at.
  simpl. rewrite He. destruct (is_used e); simpl; by rewrite ?He.
Qed.

(** With enough turns the loop is the scan of the slots from [i] on, in
    order. *)
Lemma scan_loop_run fuel : ∀ i st m,
  window_width (m_wlsb m) ≤ i + fuel →
  scan_loop fuel i st m =
    (foldl scan_entry st (drop i (window (m_wlsb m))), m).
Proof.
  unfold window_width.
  induction fuel as [|fuel IH]; intros i st m Hfuel; simpl.
  - rewrite drop_ge by lia. done.
  - unfold mbind, prog_bind, load_window_width, window_width. simpl.
    destruct (Nat.ltb_spec i (length (window (m_wlsb m)))) as [Hlt|Hge].
    + destruct (lookup_lt_is_Some_2 _ _ Hlt) as [e He].
      rewrite (scan_step_run i st m e He). simpl.
      rewrite IH by lia. by rewrite (drop_S _ _ _ He).
    + rewrite drop_ge by lia. done.
Qed.

(** The body computes what [c_get_k_wlsb] gives and stores it in
    [*bits_nr]: the call of the compressor is a run of the body. *)
Lemma c_get_k_wlsb_prog_run f v m :
  c_get_k_wlsb_prog f v m = call_get_k f m v.
Proof.
  unfold c_get_k_wlsb_prog, call_get_k, c_get_k_wlsb, scan_window.
  unfold mbind, prog_bind, load_window_width. simpl.
  rewrite scan_loop_run by lia. rewrite drop_0. simpl.
  destruct (sc_valid (foldl scan_entry scan_init (window (m_wlsb m))));
    [done|].
  by destruct m.
Qed.

(** C10. Running the body of [c_get_k_wlsb] leaves the W-LSB object as
    it was (window, flags, [oldest], [next], [bits] and [p]): of its
    accesses to memory only the store to [*bits_nr] writes.  Running it
    again on the memory the first run left, with the same value, returns
    the same success flag and leaves the same [bits_nr].  What a run
    returns and stores is what [c_get_k_wlsb] gives. *)
Theorem c_get_k_wlsb_observes f v :
  keeps_object (c_get_k_wlsb_prog f v) ∧
  (∀ m, (c_get_k_wlsb_prog f v (c_get_k_wlsb_prog f v m).2).1 =
          (c_get_k_wlsb_prog f v m).1 ∧
        m_bits_nr (c_get_k_wlsb_prog f v (c_get_k_wlsb_prog f v m).2).2
          = m_bits_nr (c_get_k_wlsb_prog f v m).2) ∧
  (∀ m, (c_get_k_wlsb_prog f v m).1 =
          (c_get_k_wlsb f (m_wlsb m) v (m_bits_nr m)).1 ∧
        m_bits_nr (c_get_k_wlsb_prog f v m).2 =
          (c_get_k_wlsb f (m_wlsb m) v (m_bits_nr m)).2).
Proof.
  split; [apply keeps_c_get_k_wlsb_prog|]. split.
  - intros m. rewrite !c_get_k_wlsb_prog_run.
    unfold call_get_k, c_get_k_wlsb. simpl.
    destruct (sc_valid (scan_window (window (m_wlsb m)))) eqn:Hv; simpl;
      rewrite ?Hv; done.
  - intros m. by rewrite c_get_k_wlsb_prog_run.
Qed.

(** ** The search of c_ack_sn_wlsb *)

Lemma search_sn_none win sn_ n : ∀ i,
  (∀ j, i ≤ j → j < i + n → matches_at win sn_ j = false) →
  search_sn win sn_ i n = None.
Proof.
  induction n as [|n IH]; intros i Hall; simpl; [done|].
  rewrite Hall by lia. apply IH. intros j ? ?. apply Hall; lia.
Qed.

Lemma search_sn_found win sn_ idx n : ∀ i,
  i ≤ idx → idx < i + n →
  matches_at win sn_ idx = true →
  (∀ j, i ≤ j → j < idx → matches_at win sn_ j = false) →
  search_sn win sn_ i n = Some idx.
Proof.
  induction n as [|n IH]; intros i Hle Hlt Hm Hbefore; simpl; [lia|].
  destruct (decide (i = idx)) as [->|Hne].
  - by rewrite Hm.
  - rewrite Hbefore by lia. apply IH; [lia|lia|done|].
    intros j ? ?. apply Hbefore; lia.
Qed.

Lemma search_sn_Some win sn_ n : ∀ i idx,
  search_sn win sn_ i n = Some idx →
  i ≤ idx ∧ idx < i + n ∧ matches_at win sn_ idx = true ∧
  (∀ j, i ≤ j → j < idx → matches_at win sn_ j = false).
Proof.
  induction n as [|n IH]; intros i idx; simpl; [done|].
  destruct (matches_at win sn_ i) eqn:Hm.
  - intros [= <-]. split; [lia|]. split; [lia|]. split; [done|].
    intros; lia.
  - intros Hs. apply IH in Hs as (H1 & H2 & H3 & H4).
    split; [lia|]. split; [lia|]. split; [done|].
    intros j ? ?. destruct (decide (j = i)) as [->|]; [done|].
    apply H4; lia.
Qed.

Lemma search_sn_None win sn_ n : ∀ i,
  search_sn win sn_ i n = None →
  ∀ j, i ≤ j → j < i + n → matches_at win sn_ j = false.
Proof.
  induction n as [|n IH]; intros i; simpl; [intros; lia|].
  destruct (matches_at win sn_ i) eqn:Hm; [done|].
  intros Hs j ? ?. destruct (decide (j = i)) as [->|]; [done|].
  apply (IH (S i)); [done|lia|lia].
Qed.

Lemma matches_at_used win sn_ j :
  matches_at win sn_ j = true → used_at win j = true.
Proof.
  unfold matches_at, used_at, entry_matches.
  destruct (win !! j); [|done]. by intros [? _]%andb_true_iff.
Qed.

Lemma matches_at_lt win sn_ j :
  matches_at win sn_ j = true → j < length win.
Proof.
  unfold matches_at. destruct (win !! j) eqn:E; [|done].
  intros _. by eapply lookup_lt_Some.
Qed.

Lemma no_match_at s sn_ j :
  no_match s sn_ → matches_at (window s) sn_ j = false.
Proof.
  intros Hno. unfold matches_at, entry_matches.
  destruct (window s !! j) as [e|] eqn:E; [|done].
  destruct (is_used e) eqn:Hu; [|done]. simpl.
  apply Z.eqb_neq. eapply Hno; [|done]. by eapply list_elem_of_lookup_2.
Qed.

Lemma ack_search_first_match s sn_ index :
  oldest s < window_width s →
  first_match s sn_ index →
  ack_search s sn_ = Some index.
Proof.
  intros Ho (Hlt & Hm & Hbefore). unfold ack_search.
  destruct (decide (oldest s ≤ index)) as [Hle|Hgt].
  - rewrite (search_sn_found _ _ index); [done|lia|lia|done|].
    intros j ? ?. apply Hbefore; [lia|]. left. lia.
  - rewrite search_sn_none.
    + apply search_sn_found; [lia|lia|done|].
      intros j ? ?. apply Hbefore; [lia|]. right. lia.
    + intros j ? ?. apply Hbefore; [lia|]. right. lia.
Qed.

Lemma ack_search_Some s sn_ index :
  oldest s < window_width s →
  ack_search s sn_ = Some index →
  first_match s sn_ index.
Proof.
  intros Ho. unfold ack_search, first_match.
  destruct (search_sn (window s) sn_ (oldest s)
              (window_width s - oldest s)) as [i|] eqn:E1.
  - intros [= <-]. apply search_sn_Some in E1 as (H1 & H2 & H3 & H4).
    split; [lia|]. split; [done|].
    intros j Hj [[? ?]|[? _]]; [|lia]. apply H4; lia.
  - intros E2. apply search_sn_Some in E2 as (H1 & H2 & H3 & H4).
    split; [lia|]. split; [done|].
    intros j Hj [[? ?]|[? [?|?]]]; [lia| |].
    + eapply search_sn_None; [exact E1|lia|lia].
    + apply H4; lia.
Qed.

Lemma ack_search_no_match s sn_ :
  no_match s sn_ → ack_search s sn_ = None.
Proof.
  intros Hno. unfold ack_search.
  rewrite !search_sn_none; [done| |];
    intros j _ _; by apply no_match_at.
Qed.

(** ** The marking of c_ack_remove *)

Lemma length_clear_range n : ∀ win lo,
  length (clear_range win lo n) = length win.
Proof.
  induction n as [|n IH]; intros win lo; simpl; [done|].
  by rewrite IH, length_alter.
Qed.

Lemma lookup_clear_range n : ∀ win lo j,
  clear_range win lo n !! j =
    if decide (lo ≤ j ∧ j < lo + n) then clear_used <$> win !! j
    else win !! j.
Proof.
  induction n as [|n IH]; intros win lo j; simpl.
  - case_decide; [lia|done].
  - rewrite IH. destruct (decide (j = lo)) as [->|Hne].
    + rewrite list_lookup_alter_eq.
      repeat case_decide; try lia; done.
    + rewrite list_lookup_alter_ne by done.
      repeat case_decide; try lia; done.
Qed.

Lemma length_ack_mark s index :
  length (ack_mark s index) = window_width s.
Proof.
  unfold ack_mark, window_width.
  destruct (oldest s =? index); [by rewrite length_alter|].
  destruct (oldest s <? index); by rewrite !length_clear_range.
Qed.

(** The marking clears the oldest slot when it is the matched one, the
    slots on the way from [oldest] to [index] otherwise, and nothing
    else. *)
Lemma lookup_ack_mark s index j :
  oldest s < window_width s → index < window_width s →
  ack_mark s index !! j =
    if decide (j = oldest s ∧ index = oldest s ∨
               on_the_way (oldest s) index j)
    then clear_used <$> window s !! j
    else window s !! j.
Proof.
  intros Ho Hi. unfold ack_mark, on_the_way.
  destruct (Nat.eqb_spec (oldest s) index) as [Heq|Hne].
  - destruct (decide (j = oldest s)) as [->|Hj].
    + rewrite list_lookup_alter_eq. case_decide; [done|lia].
    + rewrite list_lookup_alter_ne by done. case_decide; [lia|done].
  - destruct (Nat.ltb_spec (oldest s) index) as [Hlt|Hge].
    + rewrite lookup_clear_range. repeat case_decide; try lia; done.
    + rewrite !lookup_clear_range.
      destruct (window s !! j) as [e|] eqn:E.
      * pose proof (lookup_lt_Some _ _ _ E) as Hj.
        unfold window_width in *.
        repeat case_decide; try lia; done.
      * repeat case_decide; done.
Qed.

Lemma ack_oldest_lt width index :
  index < width →
  ack_oldest width index = if decide (index = width - 1) then 0 else index.
Proof.
  intros Hi. unfold ack_oldest.
  destruct (Nat.leb_spec (width - 1) index);
    destruct (Nat.leb_spec width index);
    case_decide; lia.
Qed.

Lemma ack_oldest_bound width index :
  0 < width → ack_oldest width index < width.
Proof.
  intros Hw. unfold ack_oldest.
  destruct (Nat.leb_spec (width - 1) index); [done|].
  destruct (Nat.leb_spec width index); lia.
Qed.

Lemma c_ack_sn_wlsb_found s sn_ index :
  oldest s < window_width s →
  first_match s sn_ index →
  c_ack_sn_wlsb s sn_ = c_ack_remove s index.
Proof.
  intros Ho Hm. unfold c_ack_sn_wlsb.
  by rewrite (ack_search_first_match s sn_ index).
Qed.

Lemma oldest_c_ack_remove s index :
  index < window_width s →
  oldest (c_ack_remove s index) =
    if decide (index = window_width s - 1) then 0 else index.
Proof.
  intros Hi. unfold c_ack_remove. simpl.
  rewrite ack_oldest_lt by done.
  case_decide.
  - destruct (Nat.leb_spec (window_width s) 0); done.
  - destruct (Nat.leb_spec (window_width s) index); [lia|done].
Qed.

(** C3. When the scan of [c_ack_sn_wlsb] finds its first match at a
    slot [index] other than [oldest], every slot on the way from
    [oldest] to [index] (index excluded) is marked not in use, the
    matched entry keeps its content and stays in use, and [oldest]
    becomes 0 when [index] is the last slot and [index] otherwise. *)
Theorem ack_general_case s sn_ index :
  wf_wlsb s →
  first_match s sn_ index →
  index ≠ oldest s →
  (∀ j, j < window_width s → on_the_way (oldest s) index j →
        used_at (window (c_ack_sn_wlsb s sn_)) j = false) ∧
  window (c_ack_sn_wlsb s sn_) !! index = window s !! index ∧
  used_at (window (c_ack_sn_wlsb s sn_)) index = true ∧
  oldest (c_ack_sn_wlsb s sn_) =
    (if decide (index = window_width s - 1) then 0 else index).
Proof.
  intros [Ho _] Hm Hne.
  rewrite (c_ack_sn_wlsb_found s sn_ index) by done.
  destruct Hm as (Hi & Hm & _).
  assert (Hkeep : window (c_ack_remove s index) !! index
                  = window s !! index).
  { simpl. rewrite lookup_ack_mark by done.
    case_decide as Hd; [|done].
    unfold on_the_way in Hd. lia. }
  split; [|split; [|split]].
  - intros j Hj Hway. unfold used_at. simpl.
    rewrite lookup_ack_mark by done.
    rewrite decide_True by (by right).
    by destruct (window s !! j).
  - exact Hkeep.
  - unfold used_at. rewrite Hkeep.
    by apply matches_at_used in Hm.
  - by apply oldest_c_ack_remove.
Qed.

(** C4. When the scan finds its first match at the slot [oldest]
    itself, that entry, which was in use, is marked not in use; no
    other slot changes. *)
Theorem ack_oldest_case s sn_ :
  wf_wlsb s →
  first_match s sn_ (oldest s) →
  used_at (window s) (oldest s) = true ∧
  used_at (window (c_ack_sn_wlsb s sn_)) (oldest s) = false ∧
  (∀ j, j ≠ oldest s →
        window (c_ack_sn_wlsb s sn_) !! j = window s !! j).
Proof.
  intros [Ho _] Hm.
  rewrite (c_ack_sn_wlsb_found s sn_ (oldest s)) by done.
  destruct Hm as (_ & Hm & _).
  split; [by apply matches_at_used in Hm|]. split.
  - unfold used_at. simpl. rewrite lookup_ack_mark by done.
    rewrite decide_True by (by left).
    by destruct (window s !! oldest s).
  - intros j Hj. simpl. rewrite lookup_ack_mark by done.
    rewrite decide_False; [done|].
    unfold on_the_way. lia.
Qed.

(** C9. When no in-use entry carries the sequence number,
    [c_ack_sn_wlsb] returns the object as it was: same window (contents
    and flags), same [oldest], same [next]. *)
Theorem ack_unmatched_unchanged s sn_ :
  no_match s sn_ → c_ack_sn_wlsb s sn_ = s.
Proof.
  intros Hno. unfold c_ack_sn_wlsb.
  by rewrite ack_search_no_match.
Qed.

(** ** The indices stay inside the window *)

Lemma next_loop_bound win width n : ∀ j nxt,
  0 < width → nxt < width → next_loop win width j n nxt < width.
Proof.
  induction n as [|n IH]; intros j nxt Hw Hn; simpl; [done|].
  destruct (used_at win j); [|done].
  apply IH; [done|]. apply Nat.mod_upper_bound. lia.
Qed.

Lemma ack_next_bound win width oldest_ :
  oldest_ < width → ack_next win width oldest_ < width.
Proof.
  intros Ho. unfold ack_next.
  apply next_loop_bound; [lia|]. apply next_loop_bound; lia.
Qed.

Lemma wf_create bits_ width_ p_ :
  0 < bits_ → 0 < width_ →
  ∃ s, c_create_wlsb bits_ width_ p_ = Some s ∧
       wf_wlsb s ∧ window_width s = width_.
Proof.
  intros Hb Hw. unfold c_create_wlsb.
  destruct (Nat.ltb_spec 0 bits_); [|lia].
  destruct (Nat.ltb_spec 0 width_); [|lia]. simpl.
  eexists. split; [done|].
  unfold wf_wlsb, window_width. simpl. rewrite length_replicate. lia.
Qed.

Lemma wf_add s sn_ value_ :
  wf_wlsb s →
  ∃ s', c_add_wlsb s sn_ value_ = Some s' ∧
        wf_wlsb s' ∧ window_width s' = window_width s.
Proof.
  intros [Ho Hn]. unfold c_add_wlsb.
  destruct (Nat.ltb_spec (next s) (window_width s)); [|lia].
  eexists. split; [done|].
  unfold wf_wlsb, window_width in *. simpl. rewrite length_insert.
  split; [|done]. split.
  - destruct (used_at (window s) (next s)); [|done].
    apply Nat.mod_upper_bound. lia.
  - apply Nat.mod_upper_bound. lia.
Qed.

Lemma wf_ack_remove s index :
  0 < window_width s →
  wf_wlsb (c_ack_remove s index) ∧
  window_width (c_ack_remove s index) = window_width s.
Proof.
  intros Hw.
  pose proof (ack_oldest_bound (window_width s) index Hw) as Hb.
  unfold wf_wlsb, window_width at 1 2 3. simpl.
  rewrite length_ack_mark. split; [|done]. split.
  - destruct (Nat.leb_spec (window_width s)
                (ack_oldest (window_width s) index)); lia.
  - by apply ack_next_bound.
Qed.

Lemma wf_ack s sn_ :
  wf_wlsb s →
  wf_wlsb (c_ack_sn_wlsb s sn_) ∧
  window_width (c_ack_sn_wlsb s sn_) = window_width s.
Proof.
  intros Hwf. unfold c_ack_sn_wlsb.
  destruct (ack_search s sn_); [|done].
  apply wf_ack_remove. destruct Hwf. lia.
Qed.

Lemma wf_run_calls f cs : ∀ m,
  wf_wlsb (m_wlsb m) →
  ∃ m', run_calls f m cs = Some m' ∧
        wf_wlsb (m_wlsb m') ∧
        window_width (m_wlsb m') = window_width (m_wlsb m).
Proof.
  induction cs as [|c cs IH]; intros m Hwf; simpl.
  - by exists m.
  - destruct c as [sn_ value_|value_|sn_]; simpl.
    + destruct (wf_add (m_wlsb m) sn_ value_ Hwf) as (s' & -> & Hwf' & Hw).
      destruct (IH {| m_wlsb := s'; m_bits_nr := m_bits_nr m |} Hwf')
        as (m' & Hr & Hwf'' & Hw').
      exists m'. simpl in *. split; [done|]. split; [done|]. lia.
    + apply (IH {| m_wlsb := m_wlsb m;
                   m_bits_nr := (c_get_k_wlsb f (m_wlsb m) value_
                                   (m_bits_nr m)).2 |}).
      exact Hwf.
    + destruct (wf_ack (m_wlsb m) sn_ Hwf) as [Hwf' Hw].
      destruct (IH {| m_wlsb := c_ack_sn_wlsb (m_wlsb m) sn_;
                      m_bits_nr := m_bits_nr m |} Hwf')
        as (m' & Hr & Hwf'' & Hw').
      exists m'. simpl in *. split; [done|]. split; [done|]. lia.
Qed.

Lemma count_used_le win : count_used win ≤ length win.
Proof.
  unfold count_used. induction win as [|e win IH]; simpl; [done|].
  destruct (is_used e); simpl; lia.
Qed.

Lemma count_used_insert win : ∀ i e,
  i < length win →
  count_used (<[i := e]> win) + (if used_at win i then 1 else 0) =
  count_used win + (if is_used e then 1 else 0).
Proof.
  unfold count_used, used_at.
  induction win as [|e0 win IH]; intros i e Hi; simpl in *; [lia|].
  destruct i as [|i]; simpl.
  - destruct (is_used e0), (is_used e); simpl; lia.
  - specialize (IH i e ltac:(lia)).
    destruct (is_used e0); simpl; lia.
Qed.

(** What an insertion does to the window: the slot at [next] is
    overwritten, the other slots and the width stay, and [oldest] moves
    on by one slot when the overwritten slot was in use. *)
Lemma c_add_wlsb_overwrites s sn_ value_ s' :
  c_add_wlsb s sn_ value_ = Some s' →
  window s' !! next s = Some (entry sn_ value_) ∧
  (∀ j, j ≠ next s → window s' !! j = window s !! j) ∧
  window_width s' = window_width s ∧
  oldest s' = (if used_at (window s) (next s)
               then (oldest s + 1) mod window_width s else oldest s).
Proof.
  unfold c_add_wlsb.
  destruct (Nat.ltb_spec (next s) (window_width s)); [|done].
  intros [= <-]. unfold window_width. simpl.
  split; [by apply list_lookup_insert_eq|].
  split; [intros j Hj; by apply list_lookup_insert_ne|].
  split; [apply length_insert|done].
Qed.

(** C6. From an object created with a window of [C] slots, whatever
    insertions, acknowledgements and bit searches follow, every call
    returns, the window keeps its [C] slots and the number of in-use
    entries is at most [C]; and an insertion made then overwrites the
    slot at [next] and no other, moves [oldest] on by one slot exactly
    when that slot was in use, moves [next] on by one slot, does not
    grow the window, and adds one in-use entry when the slot was free and
    none when it was in use, staying within [C]. *)
Theorem capacity_invariant f bits_ C p_ b0 cs :
  0 < bits_ → 0 < C →
  ∃ m, run_from_create f bits_ C p_ b0 cs = Some m ∧
       window_width (m_wlsb m) = C ∧
       count_used (window (m_wlsb m)) ≤ C ∧
       ∀ sn_ value_, ∃ s',
         c_add_wlsb (m_wlsb m) sn_ value_ = Some s' ∧
         window s' !! next (m_wlsb m) = Some (entry sn_ value_) ∧
         (∀ j, j ≠ next (m_wlsb m) →
               window s' !! j = window (m_wlsb m) !! j) ∧
         window_width s' = C ∧
         oldest s' =
           (if used_at (window (m_wlsb m)) (next (m_wlsb m))
            then (oldest (m_wlsb m) + 1) mod C
            else oldest (m_wlsb m)) ∧
         next s' = (next (m_wlsb m) + 1) mod C ∧
         count_used (window s') =
           (if used_at (window (m_wlsb m)) (next (m_wlsb m))
            then count_used (window (m_wlsb m))
            else S (count_used (window (m_wlsb m)))) ∧
         count_used (window s') ≤ C.
Proof.
  intros Hb Hc. unfold run_from_create.
  destruct (wf_create bits_ C p_ Hb Hc) as (s & -> & Hwf & Hw).
  destruct (wf_run_calls f cs {| m_wlsb := s; m_bits_nr := b0 |} Hwf)
    as (m & Hr & Hwf' & Hw').
  exists m. simpl in *.
  assert (HwC : window_width (m_wlsb m) = C) by lia.
  split; [done|]. split; [done|]. split.
  { rewrite <- HwC. apply count_used_le. }
  intros sn_ value_.
  destruct (wf_add (m_wlsb m) sn_ value_ Hwf') as (s' & Ha & _ & Hws).
  exists s'. split; [done|].
  destruct (c_add_wlsb_overwrites _ _ _ _ Ha) as (Hnew & Hold & _ & Ho).
  split; [done|]. split; [done|]. split; [lia|].
  split; [by rewrite Ho, HwC|].
  assert (Hwin : window s' =
            <[next (m_wlsb m) := entry sn_ value_]> (window (m_wlsb m))
          ∧ next s' = (next (m_wlsb m) + 1) mod C).
  { unfold c_add_wlsb in Ha. rewrite HwC in Ha.
    destruct (next (m_wlsb m) <? C); [|done].
    by injection Ha as <-. }
  destruct Hwin as [Hwin Hnext]. split; [done|].
  assert (Hcount : count_used (window s') =
            (if used_at (window (m_wlsb m)) (next (m_wlsb m))
             then count_used (window (m_wlsb m))
             else S (count_used (window (m_wlsb m))))).
  { destruct Hwf' as [_ Hn].
    pose proof (count_used_insert (window (m_wlsb m)) (next (m_wlsb m))
                  (entry sn_ value_) Hn) as Hci.
    rewrite <- Hwin in Hci. simpl in Hci.
    destruct (used_at (window (m_wlsb m)) (next (m_wlsb m))); lia. }
  split; [done|].
  pose proof (count_used_le (window s')) as Hle.
  unfold window_width in *. lia.
Qed.

(** ** Arithmetic of the ring *)

Lemma mod_ring a width :
  0 < width → a < 2 * width →
  a mod width = if a <? width then a else a - width.
Proof.
  intros Hw Ha. destruct (Nat.ltb_spec a width) as [Hlt|Hge].
  - by apply Nat.mod_small.
  - symmetry. apply (Nat.mod_unique a width 1); lia.
Qed.

Lemma succ_mod x width :
  x < width → (x + 1) mod width = if x + 1 <? width then x + 1 else 0.
Proof.
  intros Hx. rewrite mod_ring by lia.
  destruct (Nat.ltb_spec (x + 1) width); lia.
Qed.

Lemma slot_after_ring s d :
  oldest s < window_width s → d < window_width s →
  slot_after s d = ring_slot (window_width s) (oldest s) d.
Proof.
  intros Ho Hd. unfold slot_after, ring_slot. apply mod_ring; lia.
Qed.

(** ** The loops that recompute next *)

Lemma next_loop_run win width cnt : ∀ j nxt k,
  0 < width → nxt < width → k ≤ cnt →
  (∀ i, j ≤ i → i < j + k → used_at win i = true) →
  (k < cnt → used_at win (j + k) = false) →
  next_loop win width j cnt nxt = (nxt + k) mod width.
Proof.
  induction cnt as [|cnt IH]; intros j nxt k Hw Hn Hk Hrun Hstop; simpl.
  - assert (k = 0) as -> by lia.
    rewrite Nat.add_0_r. symmetry. by apply Nat.mod_small.
  - destruct k as [|k].
    + rewrite Nat.add_0_r in Hstop. rewrite Hstop by lia.
      rewrite Nat.add_0_r. symmetry. by apply Nat.mod_small.
    + rewrite Hrun by lia.
      rewrite (IH (S j) ((nxt + 1) mod width) k); try lia.
      * rewrite Nat.Div0.add_mod_idemp_l. f_equal. lia.
      * apply Nat.mod_upper_bound. lia.
      * intros i ? ?. apply Hrun; lia.
      * intros Hlt. replace (S j + k) with (j + S k) by lia.
        apply Hstop. lia.
Qed.

(** ** The run of in-use slots *)

Ltac ring_cases :=
  unfold ring_dist, ring_slot in *;
  repeat match goal with
  | |- context [?a <=? ?b] => destruct (Nat.leb_spec a b)
  | |- context [?a <? ?b] => destruct (Nat.ltb_spec a b)
  | H : context [?a <=? ?b] |- _ => destruct (Nat.leb_spec a b)
  | H : context [?a <? ?b] |- _ => destruct (Nat.ltb_spec a b)
  end;
  try lia.

Lemma used_at_insert win x e j :
  x < length win →
  used_at (<[x := e]> win) j =
    if decide (j = x) then is_used e else used_at win j.
Proof.
  intros Hx. unfold used_at. case_decide as Hj.
  - subst j. by rewrite list_lookup_insert_eq.
  - by rewrite list_lookup_insert_ne.
Qed.

Lemma run_inv_create bits_ width_ p_ s :
  c_create_wlsb bits_ width_ p_ = Some s → run_inv s 0.
Proof.
  unfold c_create_wlsb.
  destruct (0 <? bits_); [|done].
  destruct (Nat.ltb_spec 0 width_); [|done]. simpl.
  intros [= <-]. unfold run_inv, wf_wlsb, window_width. simpl.
  rewrite length_replicate.
  split; [lia|]. split; [lia|]. split.
  - intros j Hj. unfold used_at.
    rewrite lookup_replicate_2 by done. simpl. split; [done|lia].
  - ring_cases.
Qed.

Lemma run_inv_add s n sn_ value_ s' :
  run_inv s n →
  c_add_wlsb s sn_ value_ = Some s' →
  ∃ n', run_inv s' n'.
Proof.
  intros ((Ho & Hn) & Hle & Hused & Hnext). unfold c_add_wlsb.
  destruct (Nat.ltb_spec (next s) (window_width s)); [|lia].
  intros [= <-].
  pose proof (Hused (next s) Hn) as Hx.
  unfold run_inv, wf_wlsb, window_width in *. simpl.
  rewrite length_insert.
  set (w := length (window s)) in *.
  destruct (decide (n < w)) as [Hlt|Hfull].
  - exists (S n).
    destruct (used_at (window s) (next s)) eqn:Hu.
    { exfalso. destruct Hx as [Hx _]. specialize (Hx eq_refl).
      rewrite Hnext in Hx. ring_cases. }
    split; [split; [done|apply Nat.mod_upper_bound; lia]|].
    split; [lia|]. split.
    + intros j Hj. rewrite used_at_insert by done. simpl.
      specialize (Hused j Hj).
      case_decide as Hjx.
      * split; [|done]. intros _. subst j. rewrite Hnext. ring_cases.
      * rewrite Hused. rewrite Hnext in Hjx. ring_cases.
    + rewrite succ_mod by done. rewrite Hnext. ring_cases.
  - exists w. assert (n = w) as -> by lia.
    assert (Hxo : next s = oldest s) by (rewrite Hnext; ring_cases).
    destruct (used_at (window s) (next s)) eqn:Hu.
    2:{ exfalso. destruct Hx as [_ Hx]. rewrite Hxo in Hx.
        assert (false = true); [|done]. apply Hx. ring_cases. }
    assert (Ho' : (oldest s + 1) mod w < w)
      by (apply Nat.mod_upper_bound; lia).
    split; [split; [done|apply Nat.mod_upper_bound; lia]|].
    split; [lia|]. split.
    + intros j Hj. rewrite used_at_insert by done. simpl.
      specialize (Hused j Hj).
      case_decide as Hjx.
      * split; [|done]. intros _. ring_cases.
      * rewrite Hused. split; intros _; ring_cases.
    + rewrite Hxo. generalize dependent ((oldest s + 1) mod w).
      intros o' Ho'. ring_cases.
Qed.

(** On a window whose in-use slots are the [n] slots from [oldest_],
    the two loops of [c_ack_remove] set [next] to the slot after the
    run. *)
Lemma ack_next_run win width oldest_ n :
  oldest_ < width → n ≤ width →
  (∀ j, j < width →
        (used_at win j = true ↔ ring_dist width oldest_ j < n)) →
  ack_next win width oldest_ = ring_slot width oldest_ n.
Proof.
  intros Ho Hn Hused. unfold ack_next.
  set (k1 := Nat.min n (width - oldest_)).
  assert (Hfalse : ∀ j, j < width →
            ¬ ring_dist width oldest_ j < n → used_at win j = false).
  { intros j Hj Hnot. destruct (used_at win j) eqn:E; [|done].
    apply Hused in E; [contradiction|done]. }
  rewrite (next_loop_run win width (width - oldest_) oldest_ oldest_ k1);
    [|lia|lia|lia| |].
  - rewrite (next_loop_run win width oldest_ 0 _ (n - k1));
      [|lia|apply Nat.mod_upper_bound; lia|lia| |].
    + rewrite Nat.Div0.add_mod_idemp_l.
      replace (oldest_ + k1 + (n - k1)) with (oldest_ + n) by lia.
      rewrite mod_ring by lia. reflexivity.
    + intros i _ Hi. apply Hused; [lia|]. ring_cases.
    + intros Hlt. apply Hfalse; [lia|]. ring_cases.
  - intros i Hi1 Hi2. apply Hused; [lia|]. ring_cases.
  - intros Hlt. apply Hfalse; [lia|]. ring_cases.
Qed.

Lemma walk_used_run win width cnt : ∀ j k,
  j < width → k ≤ cnt →
  (∀ d, d < k → used_at win ((j + d) mod width) = true) →
  (k < cnt → used_at win ((j + k) mod width) = false) →
  walk_used win width j cnt = (j + k) mod width.
Proof.
  induction cnt as [|cnt IH]; intros j k Hj Hk Hrun Hstop; simpl.
  - assert (k = 0) as -> by lia.
    rewrite Nat.add_0_r. symmetry. by apply Nat.mod_small.
  - destruct k as [|k].
    + rewrite Nat.add_0_r in Hstop |- *.
      rewrite (Nat.mod_small j width) in Hstop |- * by done.
      by rewrite Hstop by lia.
    + pose proof (Hrun 0 ltac:(lia)) as Hj0.
      rewrite Nat.add_0_r, Nat.mod_small in Hj0 by done. rewrite Hj0.
      rewrite (IH ((j + 1) mod width) k).
      * rewrite Nat.Div0.add_mod_idemp_l. f_equal. lia.
      * apply Nat.mod_upper_bound. lia.
      * lia.
      * intros d Hd. rewrite Nat.Div0.add_mod_idemp_l.
        replace (j + 1 + d) with (j + S d) by lia. apply Hrun. lia.
      * intros Hlt. rewrite Nat.Div0.add_mod_idemp_l.
        replace (j + 1 + k) with (j + S k) by lia. apply Hstop. lia.
Qed.

(** On such a window the walk of the specification ends on the same
    slot: there the loops of [c_ack_remove] and the walk agree. *)
Lemma spec_next_run win oldest_ n :
  oldest_ < length win → n ≤ length win →
  (∀ j, j < length win →
        (used_at win j = true ↔ ring_dist (length win) oldest_ j < n)) →
  spec_next win oldest_ = ack_next win (length win) oldest_.
Proof.
  intros Ho Hn Hused.
  rewrite (ack_next_run win (length win) oldest_ n) by done.
  unfold spec_next. set (w := length win) in *.
  assert (Hslot : ∀ d, d ≤ w →
            (oldest_ + d) mod w = ring_slot w oldest_ d).
  { intros d Hd. apply mod_ring; lia. }
  rewrite (walk_used_run win w w oldest_ n); [by apply Hslot|done|done| |].
  - intros d Hd. rewrite Hslot by lia.
    apply Hused; ring_cases.
  - intros Hlt. rewrite Hslot by lia.
    destruct (used_at win (ring_slot w oldest_ n)) eqn:E; [|done].
    apply Hused in E; ring_cases.
Qed.

Lemma used_at_ack_mark s index j :
  oldest s < window_width s → index < window_width s →
  used_at (ack_mark s index) j =
    if decide (j = oldest s ∧ index = oldest s ∨
               on_the_way (oldest s) index j)
    then false else used_at (window s) j.
Proof.
  intros Ho Hi. unfold used_at. rewrite lookup_ack_mark by done.
  case_decide; [|done]. by destruct (window s !! j).
Qed.

Lemma run_inv_ack_remove s n index :
  run_inv s n →
  index < window_width s →
  used_at (window s) index = true →
  index ≠ oldest s →
  index ≠ window_width s - 1 →
  run_inv (c_ack_remove s index)
    (n - ring_dist (window_width s) (oldest s) index).
Proof.
  intros ((Ho & Hnx) & Hle & Hused & Hnext) Hi Hu Hne Hlast.
  pose proof (proj1 (Hused index Hi) Hu) as Hm.
  destruct (wf_ack_remove s index) as [Hwf Hw]; [lia|].
  assert (Hold : oldest (c_ack_remove s index) = index).
  { rewrite oldest_c_ack_remove by done. by rewrite decide_False. }
  assert (Hused' : ∀ j, j < window_width s →
            (used_at (ack_mark s index) j = true ↔
             ring_dist (window_width s) index j <
               n - ring_dist (window_width s) (oldest s) index)).
  { intros j Hj. rewrite used_at_ack_mark by done.
    specialize (Hused j Hj). unfold on_the_way.
    case_decide as Hd.
    - split; [done|]. intros Hlt. exfalso. ring_cases.
    - rewrite Hused. ring_cases. }
  unfold run_inv. rewrite Hw, Hold.
  split; [done|]. split; [lia|]. split; [exact Hused'|].
  simpl. rewrite ack_oldest_lt by done. rewrite decide_False by done.
  apply ack_next_run; [done|lia|exact Hused'].
Qed.

Lemma run_inv_contiguous s n : run_inv s n → contiguous_run s.
Proof.
  intros ((Ho & Hnx) & Hle & Hused & Hnext) d1 d2 Hlt Hd2.
  rewrite !slot_after_ring by lia.
  set (w := window_width s) in *. set (o := oldest s) in *.
  assert (H1 : ring_slot w o d1 < w) by ring_cases.
  assert (H2 : ring_slot w o d2 < w) by ring_cases.
  intros Hfree.
  destruct (used_at (window s) (ring_slot w o d2)) eqn:E; [|done].
  apply Hused in E; [|done].
  assert (Hin : used_at (window s) (ring_slot w o d1) = true).
  { apply Hused; [done|]. ring_cases. }
  congruence.
Qed.

Lemma run_inv_ack_plain s n sn_ :
  run_inv s n →
  ack_is_plain s sn_ = true →
  ∃ n', run_inv (c_ack_sn_wlsb s sn_) n'.
Proof.
  intros Hinv. unfold ack_is_plain, c_ack_sn_wlsb.
  destruct (ack_search s sn_) as [i|] eqn:Hs; [|by exists n].
  intros [Hne Hlast]%andb_true_iff.
  apply negb_true_iff, Nat.eqb_neq in Hne.
  apply negb_true_iff, Nat.eqb_neq in Hlast.
  apply ack_search_Some in Hs as (Hi & Hm & _); [|apply Hinv].
  eexists. apply run_inv_ack_remove; [done|done| |done|done].
  by apply matches_at_used in Hm.
Qed.

Lemma run_inv_plain_calls f cs : ∀ m n,
  run_inv (m_wlsb m) n →
  plain_calls f m cs = true →
  ∃ m' n', run_calls f m cs = Some m' ∧ run_inv (m_wlsb m') n'.
Proof.
  induction cs as [|c cs IH]; intros m n Hinv; simpl.
  - intros _. by exists m, n.
  - intros [Hc Hrest]%andb_true_iff.
    destruct c as [sn_ value_|value_|sn_]; simpl in *.
    + destruct (c_add_wlsb (m_wlsb m) sn_ value_) as [s'|] eqn:Ha;
        [|done].
      destruct (run_inv_add _ _ _ _ _ Hinv Ha) as [n' Hinv'].
      by apply (IH _ n').
    + by apply (IH _ n).
    + destruct (run_inv_ack_plain _ _ _ Hinv Hc) as [n' Hinv'].
      by apply (IH _ n').
Qed.

(** C7, as amended.  From an object just created, through insertions,
    bit searches and acknowledgements whose scan finds no match or
    finds its first match neither at [oldest] nor at the last slot,
    every call returns and the in-use entries form one circular run
    starting at [oldest]. *)
Theorem plain_runs_contiguous f bits_ C p_ b0 cs :
  plain_from_create f bits_ C p_ b0 cs = true →
  ∃ m, run_from_create f bits_ C p_ b0 cs = Some m ∧
       contiguous_run (m_wlsb m).
Proof.
  unfold plain_from_create, run_from_create.
  destruct (c_create_wlsb bits_ C p_) as [s|] eqn:Hc; [|done].
  intros Hplain. apply run_inv_create in Hc.
  destruct (run_inv_plain_calls f cs {| m_wlsb := s; m_bits_nr := b0 |}
              0 Hc Hplain) as (m & n & Hr & Hinv).
  exists m. split; [done|]. by eapply run_inv_contiguous.
Qed.

(** ** Evaluation on sample windows *)

Example wrapped3_reached f :
  (λ m, m_wlsb m) <$>
    run_from_create f 4 3 0 0
      [CallAdd 1 100; CallAdd 2 101; CallAdd 3 102; CallAdd 4 103]
  = Some wlsb_wrapped3.
Proof. reflexivity. Qed.

Example wrapped3_get_k :
  c_get_k_wlsb f_rfc wlsb_wrapped3 103 0 = (true, 2).
Proof. reflexivity. Qed.

Example full3_get_k_saturated :
  c_get_k_wlsb f_rfc wlsb_full3 1000 0 = (true, 4).
Proof. reflexivity. Qed.

(** C5. The claim fails on the code.  In a full window of three slots
    that has wrapped ([oldest] = 1), acknowledging the oldest entry
    frees slot 1 and keeps [oldest] = 1; the walk from [oldest] stops at
    once, on slot 1, but the second loop of [c_ack_remove] runs although
    the first one broke, counts slot 0 and leaves [next] = 2. *)
Theorem ack_next_overruns_free_slot f :
  ∃ m, run_from_create f 4 3 0 0
         [CallAdd 1 100; CallAdd 2 101; CallAdd 3 102; CallAdd 4 103;
          CallAck 2] = Some m ∧
       oldest (m_wlsb m) = 1 ∧
       used_at (window (m_wlsb m)) 1 = false ∧
       spec_next (window (m_wlsb m)) (oldest (m_wlsb m)) = 1 ∧
       next (m_wlsb m) = 2.
Proof. eexists. split; [reflexivity|]. repeat split. Qed.

(** C7, as stated, fails: after two insertions, acknowledging the
    oldest entry frees slot 0 and leaves [oldest] = 0, while slot 1,
    beyond it, is still in use. *)
Lemma contiguous_run_broken_by_ack :
  ∃ m, run_from_create f_rfc 4 3 0 0
         [CallAdd 1 100; CallAdd 2 101; CallAck 1] = Some m ∧
       ¬ contiguous_run (m_wlsb m).
Proof.
  eexists. split; [reflexivity|].
  intros Hrun. specialize (Hrun 0 1).
  simpl in Hrun. unfold window_width in Hrun. simpl in Hrun.
  assert (Hbad : used_at
            [clear_used (entry 1 100); entry 2 101; zero_entry] 1
            = false).
  { apply Hrun; [lia|lia|reflexivity]. }
  discriminate Hbad.
Qed.

(** The run is also broken when the match is at the last slot:
    [oldest] is set to 0, not to the matched slot. *)
Example contiguous_run_broken_at_last_slot :
  ∃ m, run_from_create f_rfc 4 3 0 0
         [CallAdd 1 100; CallAdd 2 101; CallAdd 3 102; CallAck 3]
       = Some m ∧
       oldest (m_wlsb m) = 0 ∧
       used_at (window (m_wlsb m)) 0 = false ∧
       used_at (window (m_wlsb m)) 2 = true.
Proof. eexists. split; [reflexivity|]. repeat split. Qed.

(** ** The theorems at concrete windows *)

Ltac in_sample_window He :=
  simpl in He;
  repeat (apply elem_of_cons in He as [->|He]);
  [..|by apply elem_of_nil in He].

Lemma c_get_k_wlsb_minimal_bits_witness :
  ∃ min_ref max_ref k1 k2,
    min_of_used (window wlsb_wrapped3) min_ref ∧
    max_of_used (window wlsb_wrapped3) max_ref ∧
    first_fit f_rfc min_ref 103 (p wlsb_wrapped3) (bits wlsb_wrapped3) k1 ∧
    first_fit f_rfc max_ref 103 (p wlsb_wrapped3) (bits wlsb_wrapped3) k2 ∧
    c_get_k_wlsb f_rfc wlsb_wrapped3 103 0 = (true, Nat.max k1 k2).
Proof.
  apply (c_get_k_wlsb_minimal_bits f_rfc wlsb_wrapped3 103 0).
  - intros e He _. in_sample_window He; unfold is_uint32; simpl; lia.
  - exists (entry 4 103). split; [left|reflexivity].
Defined.

Lemma c_get_k_wlsb_saturates_witness :
  c_get_k_wlsb f_rfc wlsb_full3 1000 0 = (true, bits wlsb_full3).
Proof.
  apply (c_get_k_wlsb_saturates f_rfc wlsb_full3 1000 0).
  - intros e He _. in_sample_window He; unfold is_uint32; simpl; lia.
  - exists (entry 1 100). split; [left|reflexivity].
  - intros r k Hr Hk. simpl in Hk.
    assert (Hin : ∃ e, e ∈ window wlsb_full3 ∧ value e = r).
    { destruct Hr as [[(e & He & _ & Hv) _]|[(e & He & _ & Hv) _]];
        by exists e. }
    destruct Hin as (e & He & <-).
    do 4 (destruct k as [|k]; [in_sample_window He; reflexivity|]).
    lia.
Defined.

Lemma ack_general_case_witness :
  (∀ j, j < window_width wlsb_wrapped3 →
        on_the_way (oldest wlsb_wrapped3) 0 j →
        used_at (window (c_ack_sn_wlsb wlsb_wrapped3 4)) j = false) ∧
  window (c_ack_sn_wlsb wlsb_wrapped3 4) !! 0 =
    window wlsb_wrapped3 !! 0 ∧
  used_at (window (c_ack_sn_wlsb wlsb_wrapped3 4)) 0 = true ∧
  oldest (c_ack_sn_wlsb wlsb_wrapped3 4) =
    (if decide (0 = window_width wlsb_wrapped3 - 1) then 0 else 0).
Proof.
  apply (ack_general_case wlsb_wrapped3 4 0).
  - unfold wf_wlsb, window_width. simpl. lia.
  - unfold first_match, window_width, on_the_way. simpl.
    split; [lia|]. split; [reflexivity|].
    intros j Hj Hway.
    assert (j = 1 ∨ j = 2) as [->| ->] by lia; reflexivity.
  - simpl. lia.
Defined.

Lemma ack_oldest_case_witness :
  used_at (window wlsb_wrapped3) (oldest wlsb_wrapped3) = true ∧
  used_at (window (c_ack_sn_wlsb wlsb_wrapped3 2))
    (oldest wlsb_wrapped3) = false ∧
  (∀ j, j ≠ oldest wlsb_wrapped3 →
        window (c_ack_sn_wlsb wlsb_wrapped3 2) !! j =
          window wlsb_wrapped3 !! j).
Proof.
  apply (ack_oldest_case wlsb_wrapped3 2).
  - unfold wf_wlsb, window_width. simpl. lia.
  - unfold first_match, window_width, on_the_way. simpl.
    split; [lia|]. split; [reflexivity|].
    intros j Hj Hway. lia.
Defined.

Lemma capacity_invariant_witness :
  ∃ m, run_from_create f_rfc 4 3 0 0
         [CallAdd 1 100; CallAdd 2 101; CallGetK 101; CallAdd 3 102;
          CallAdd 4 103; CallAck 3; CallAdd 5 104] = Some m ∧
       window_width (m_wlsb m) = 3 ∧
       count_used (window (m_wlsb m)) ≤ 3 ∧
       ∀ sn_ value_, ∃ s',
         c_add_wlsb (m_wlsb m) sn_ value_ = Some s' ∧
         window s' !! next (m_wlsb m) = Some (entry sn_ value_) ∧
         (∀ j, j ≠ next (m_wlsb m) →
               window s' !! j = window (m_wlsb m) !! j) ∧
         window_width s' = 3 ∧
         oldest s' =
           (if used_at (window (m_wlsb m)) (next (m_wlsb m))
            then (oldest (m_wlsb m) + 1) mod 3
            else oldest (m_wlsb m)) ∧
         next s' = (next (m_wlsb m) + 1) mod 3 ∧
         count_used (window s') =
           (if used_at (window (m_wlsb m)) (next (m_wlsb m))
            then count_used (window (m_wlsb m))
            else S (count_used (window (m_wlsb m)))) ∧
         count_used (window s') ≤ 3.
Proof. apply (capacity_invariant f_rfc 4 3 0 0); lia. Defined.

Lemma plain_runs_contiguous_witness :
  ∃ m, run_from_create f_rfc 4 3 0 0
         [CallAdd 1 100; CallAdd 2 101; CallAdd 3 102; CallAck 2;
          CallAdd 4 103] = Some m ∧
       contiguous_run (m_wlsb m).
Proof. apply (plain_runs_contiguous f_rfc 4 3 0 0). reflexivity. Defined.

Lemma c_get_k_wlsb_empty_window_witness :
  c_get_k_wlsb f_rfc wlsb_empty3 103 7 = (false, 7) ∧
  (∀ s, c_create_wlsb 4 3 0 = Some s →
        c_get_k_wlsb f_rfc s 103 7 = (false, 7)).
Proof.
  split.
  - apply (proj1 (c_get_k_wlsb_empty_window f_rfc 103 7) wlsb_empty3).
    intros (e & He & Hu). in_sample_window He; discriminate Hu.
  - apply (proj2 (c_get_k_wlsb_empty_window f_rfc 103 7) 4 3 0%Z).
Defined.

Lemma ack_unmatched_unchanged_witness :
  c_ack_sn_wlsb wlsb_wrapped3 9 = wlsb_wrapped3.
Proof.
  apply (ack_unmatched_unchanged wlsb_wrapped3 9).
  intros e He _. in_sample_window He; discriminate.
Defined.

(** * Further properties of the code *)

(** ** c_sum_wlsb and c_mean_wlsb *)

Lemma wrap_int32_range z :
  (-2147483648 <= wrap_int32 z <= 2147483647)%Z.
Proof.
  unfold wrap_int32.
  pose proof (Z.mod_pos_bound (z + 2147483648) 4294967296). lia.
Qed.

Lemma wrap_int32_small z :
  (-2147483648 <= z <= 2147483647)%Z → wrap_int32 z = z.
Proof.
  intros Hz. unfold wrap_int32. rewrite Z.mod_small; lia.
Qed.

Lemma wrap_int32_congr a b :
  (a mod 4294967296 = b mod 4294967296)%Z → wrap_int32 a = wrap_int32 b.
Proof.
  intros Hab. unfold wrap_int32.
  rewrite <- (Zplus_mod_idemp_l a), Hab, Zplus_mod_idemp_l. reflexivity.
Qed.

Lemma wrap_int32_mod z :
  (wrap_int32 z mod 4294967296 = z mod 4294967296)%Z.
Proof.
  unfold wrap_int32.
  rewrite <- Zminus_mod_idemp_l, Z.mod_mod by lia.
  rewrite Zminus_mod_idemp_l. f_equal. lia.
Qed.

Lemma add_to_int_wrap sum value_ :
  add_to_int sum value_ = wrap_int32 (sum + value_).
Proof.
  unfold add_to_int. apply wrap_int32_congr.
  rewrite Z.mod_mod by lia. by rewrite Zplus_mod_idemp_l.
Qed.

(** The loop of [c_sum_wlsb] from an accumulator [acc]. *)
Lemma foldl_sum_entry win : ∀ acc,
  wrap_int32 (foldl sum_entry acc win) = wrap_int32 (acc + sum_used win).
Proof.
  induction win as [|e win IH]; intros acc; simpl.
  - by rewrite Z.add_0_r.
  - rewrite IH. unfold sum_entry. destruct (is_used e); [|done].
    apply wrap_int32_congr. rewrite add_to_int_wrap.
    rewrite <- Zplus_mod_idemp_l, wrap_int32_mod, Zplus_mod_idemp_l.
    f_equal. lia.
Qed.

Lemma foldl_sum_entry_range win : ∀ acc,
  (-2147483648 <= acc <= 2147483647)%Z →
  (-2147483648 <= foldl sum_entry acc win <= 2147483647)%Z.
Proof.
  induction win as [|e win IH]; intros acc Hacc; simpl; [done|].
  apply IH. unfold sum_entry. destruct (is_used e); [|done].
  rewrite add_to_int_wrap. apply wrap_int32_range.
Qed.

(** The loop of [c_mean_wlsb] computes the sum of [c_sum_wlsb] and the
    number of in-use entries. *)
Lemma foldl_mean_entry win : ∀ acc num,
  foldl mean_entry (acc, num) win =
    (foldl sum_entry acc win, num + count_used win).
Proof.
  unfold count_used.
  induction win as [|e win IH]; intros acc num; simpl.
  - by rewrite Nat.add_0_r.
  - unfold mean_entry at 2, sum_entry at 2. simpl.
    destruct (is_used e); simpl; rewrite IH; f_equal; lia.
Qed.

Lemma count_used_pos win : has_used win ↔ 0 < count_used win.
Proof.
  unfold count_used, has_used.
  induction win as [|e win IH]; simpl.
  - split; [|lia]. intros (e & He & _). by apply elem_of_nil in He.
  - destruct (is_used e) eqn:Hu; simpl.
    + split; [lia|]. intros _. exists e. split; [left|done].
    + rewrite <- IH. split.
      * intros (e' & He' & Hu'). apply elem_of_cons in He' as [->|He'];
          [congruence|]. by exists e'.
      * intros (e' & He' & Hu'). exists e'. split; [by right|done].
Qed.

Lemma sum_used_bounds win lo hi :
  (∀ e, e ∈ win → is_used e = true → (lo <= value e <= hi)%Z) →
  (Z.of_nat (count_used win) * lo <= sum_used win
   <= Z.of_nat (count_used win) * hi)%Z.
Proof.
  unfold count_used.
  induction win as [|e win IH]; intros Hall; simpl; [lia|].
  assert (IH' := IH (λ e' He', Hall e' (list_elem_of_further _ _ _ He'))).
  destruct (is_used e) eqn:Hu; simpl; [|exact IH'].
  specialize (Hall e (list_elem_of_here _ _) Hu).
  simpl length. lia.
Qed.

Lemma c_sum_wlsb_wrap s :
  c_sum_wlsb s = wrap_int32 (sum_used (window s)).
Proof.
  unfold c_sum_wlsb.
  rewrite <- (wrap_int32_small (foldl sum_entry 0%Z (window s))).
  - by rewrite foldl_sum_entry.
  - apply foldl_sum_entry_range. lia.
Qed.

Lemma sum_used_nonneg win :
  uint32_window win → (0 <= sum_used win)%Z.
Proof.
  intros Hwin.
  pose proof (sum_used_bounds win 0 4294967295) as Hb.
  lapply Hb; [lia|]. intros e He Hu. apply (Hwin e He Hu).
Qed.

(** X1. [c_sum_wlsb] returns an [int] congruent modulo 2^32 to the sum
    of the values of the in-use entries: entries not in use do not
    count, and the sum wraps instead of saturating. *)
Theorem c_sum_wlsb_modular s :
  (-2147483648 <= c_sum_wlsb s <= 2147483647)%Z ∧
  (c_sum_wlsb s mod 4294967296 =
     sum_used (window s) mod 4294967296)%Z.
Proof.
  rewrite c_sum_wlsb_wrap. split.
  - apply wrap_int32_range.
  - apply wrap_int32_mod.
Qed.

(** X2. When the values of the in-use entries add up to at most
    2^31 - 1, [c_sum_wlsb] returns exactly their sum. *)
Theorem c_sum_wlsb_exact s :
  uint32_window (window s) →
  (sum_used (window s) <= 2147483647)%Z →
  c_sum_wlsb s = sum_used (window s).
Proof.
  intros Hwin Hsum. rewrite c_sum_wlsb_wrap.
  apply wrap_int32_small.
  pose proof (sum_used_nonneg (window s) Hwin). lia.
Qed.

Lemma c_mean_wlsb_quot s :
  c_mean_wlsb s =
    if 0 <? count_used (window s)
    then (c_sum_wlsb s ÷ Z.of_nat (count_used (window s)))%Z
    else 0%Z.
Proof.
  unfold c_mean_wlsb, c_sum_wlsb. by rewrite foldl_mean_entry.
Qed.

Lemma sum_used_unused win : ¬ has_used win → sum_used win = 0%Z.
Proof.
  induction win as [|e win IH]; intros Hno; simpl; [done|].
  destruct (is_used e) eqn:Hu.
  - exfalso. apply Hno. exists e. split; [left|done].
  - apply IH. intros (e' & He' & Hu'). apply Hno.
    exists e'. split; [by right|done].
Qed.

(** X3. [c_mean_wlsb] is [c_sum_wlsb] divided, truncating towards zero,
    by the number of in-use entries, and 0 when no entry is in use. *)
Theorem c_mean_wlsb_of_sum s :
  c_mean_wlsb s =
    if 0 <? count_used (window s)
    then (c_sum_wlsb s ÷ Z.of_nat (count_used (window s)))%Z
    else 0%Z.
Proof. apply c_mean_wlsb_quot. Qed.

(** X4. On a window with no entry in use, whatever the slots still
    hold, [c_sum_wlsb] and [c_mean_wlsb] return 0: the mean does not
    divide by zero. *)
Theorem statistics_empty_window s :
  ¬ has_used (window s) →
  c_sum_wlsb s = 0%Z ∧ c_mean_wlsb s = 0%Z.
Proof.
  intros Hno. split.
  - rewrite c_sum_wlsb_wrap, sum_used_unused by done. reflexivity.
  - rewrite c_mean_wlsb_quot.
    destruct (Nat.ltb_spec 0 (count_used (window s))) as [Hpos|]; [|done].
    by apply count_used_pos in Hpos.
Qed.

(** X5. When at least one entry is in use and the in-use values add up
    to at most 2^31 - 1, [c_mean_wlsb] returns their sum divided by
    their number, and the result lies between the least and the greatest
    in-use value. *)
Theorem c_mean_wlsb_between s lo hi :
  uint32_window (window s) →
  has_used (window s) →
  (sum_used (window s) <= 2147483647)%Z →
  min_of_used (window s) lo →
  max_of_used (window s) hi →
  c_mean_wlsb s =
    (sum_used (window s) `div` Z.of_nat (count_used (window s)))%Z ∧
  (lo <= c_mean_wlsb s <= hi)%Z.
Proof.
  intros Hwin Hu Hsum [_ Hlo] [_ Hhi].
  apply count_used_pos in Hu.
  pose proof (sum_used_nonneg _ Hwin) as Hnn.
  assert (Hmean : c_mean_wlsb s =
            (sum_used (window s) `div`
               Z.of_nat (count_used (window s)))%Z).
  { rewrite c_mean_wlsb_quot.
    destruct (Nat.ltb_spec 0 (count_used (window s))); [|lia].
    rewrite c_sum_wlsb_wrap, wrap_int32_small by lia.
    apply Z.quot_div_nonneg; lia. }
  split; [exact Hmean|]. rewrite Hmean.
  pose proof (sum_used_bounds (window s) lo hi) as Hb.
  lapply Hb.
  2:{ intros e He Hue. specialize (Hlo e He Hue).
      specialize (Hhi e He Hue). lia. }
  intros [Hb1 Hb2]. split.
  - apply Z.div_le_lower_bound; lia.
  - apply Z.div_le_upper_bound; lia.
Qed.

(** ** More on c_get_k_wlsb *)

Lemma min_of_used_unique win a b :
  min_of_used win a → min_of_used win b → a = b.
Proof.
  intros [(ea & Hea & Hua & <-) Ha] [(eb & Heb & Hub & <-) Hb].
  specialize (Ha eb Heb Hub). specialize (Hb ea Hea Hua). lia.
Qed.

Lemma max_of_used_unique win a b :
  max_of_used win a → max_of_used win b → a = b.
Proof.
  intros [(ea & Hea & Hua & <-) Ha] [(eb & Heb & Hub & <-) Hb].
  specialize (Ha eb Heb Hub). specialize (Hb ea Hea Hua). lia.
Qed.

Lemma c_get_k_wlsb_success f s v b k :
  c_get_k_wlsb f s v b = (true, k) →
  has_used (window s) ∧
  k = Nat.max (g f (sc_min (scan_window (window s))) v (p s) (bits s))
              (g f (sc_max (scan_window (window s))) v (p s) (bits s)).
Proof.
  intros Hk.
  assert (Hu : has_used (window s)).
  { apply scan_window_valid. unfold c_get_k_wlsb in Hk.
    by destruct (sc_valid (scan_window (window s))). }
  split; [done|].
  rewrite c_get_k_wlsb_used in Hk by done. by injection Hk as <-.
Qed.

Lemma g_le f v_ref v p_ max_bits : g f v_ref v p_ max_bits ≤ max_bits.
Proof. apply (g_first_fit f v_ref v p_ max_bits). Qed.

Lemma nested_intervals_from f v_ref v p_ max_bits k k' :
  nested_intervals f v_ref v p_ max_bits →
  in_interval f v_ref v p_ k = true →
  k ≤ k' → k' < max_bits →
  in_interval f v_ref v p_ k' = true.
Proof.
  intros Hnest Hk Hle. induction Hle as [|k' Hle IH]; intros Hlt.
  - exact Hk.
  - apply Hnest; [done|]. apply IH. lia.
Qed.

(** X6. Whenever [c_get_k_wlsb] succeeds, the bit count it stores is at
    most the [bits] the object was created with. *)
Theorem c_get_k_wlsb_at_most_bits f s v b k :
  c_get_k_wlsb f s v b = (true, k) → k ≤ bits s.
Proof.
  intros Hk. apply c_get_k_wlsb_success in Hk as [_ ->].
  apply Nat.max_lub; apply g_le.
Qed.

(** X7. When the intervals of [f] are nested below [bits] and
    [c_get_k_wlsb] stores a [k] below [bits], the interval for [k] bits
    contains the value around the least in-use value and around the
    greatest one alike: the stored count suits both extremes of the
    window. *)
Theorem c_get_k_wlsb_suits_both_extremes f s v b k :
  uint32_window (window s) →
  (∀ r, min_of_used (window s) r ∨ max_of_used (window s) r →
        nested_intervals f r v (p s) (bits s)) →
  c_get_k_wlsb f s v b = (true, k) →
  k < bits s →
  ∀ r, min_of_used (window s) r ∨ max_of_used (window s) r →
       in_interval f r v (p s) k = true.
Proof.
  intros Hwin Hnest Hk Hlt r Hr.
  apply c_get_k_wlsb_success in Hk as [Hu ->].
  pose proof (scan_window_min _ Hwin Hu) as Hmin.
  pose proof (scan_window_max _ Hwin Hu) as Hmax.
  set (lo := sc_min (scan_window (window s))) in *.
  set (hi := sc_max (scan_window (window s))) in *.
  destruct (g_first_fit f lo v (p s) (bits s)) as (_ & _ & Hlo).
  destruct (g_first_fit f hi v (p s) (bits s)) as (_ & _ & Hhi).
  destruct Hr as [Hr|Hr].
  - rewrite (min_of_used_unique _ _ _ Hr Hmin).
    apply (nested_intervals_from f lo v (p s) (bits s)
             (g f lo v (p s) (bits s))); [|apply Hlo|..]; try lia.
    apply Hnest. by left.
  - rewrite (max_of_used_unique _ _ _ Hr Hmax).
    apply (nested_intervals_from f hi v (p s) (bits s)
             (g f hi v (p s) (bits s))); [|apply Hhi|..]; try lia.
    apply Hnest. by right.
Qed.

Lemma g_zero f v_ref v p_ max_bits :
  in_interval f v_ref v p_ 0 = true → g f v_ref v p_ max_bits = 0.
Proof.
  intros H0. unfold g. destruct max_bits; simpl; [done|]. by rewrite H0.
Qed.

(** X8. When the interval for 0 bits already contains the value around
    the least and around the greatest in-use value (as when every in-use
    entry holds the value itself and [f] keeps the reference inside its
    interval), [c_get_k_wlsb] succeeds with 0 bits. *)
Theorem c_get_k_wlsb_zero_bits f s v b :
  uint32_window (window s) →
  has_used (window s) →
  (∀ r, min_of_used (window s) r ∨ max_of_used (window s) r →
        in_interval f r v (p s) 0 = true) →
  c_get_k_wlsb f s v b = (true, 0).
Proof.
  intros Hwin Hu H0. rewrite c_get_k_wlsb_used by done.
  rewrite !g_zero; [done| |].
  - apply H0. right. by apply scan_window_max.
  - apply H0. left. by apply scan_window_min.
Qed.

(** ** Insertion *)

(** X9. An insertion into a free slot adds one in-use entry; an
    insertion into a slot in use replaces that entry and the number of
    in-use entries stays the same. *)
Theorem c_add_wlsb_count s sn_ value_ s' :
  c_add_wlsb s sn_ value_ = Some s' →
  count_used (window s') =
    if used_at (window s) (next s) then count_used (window s)
    else S (count_used (window s)).
Proof.
  unfold c_add_wlsb.
  destruct (Nat.ltb_spec (next s) (window_width s)) as [Hn|]; [|done].
  intros [= <-]. simpl.
  pose proof (count_used_insert (window s) (next s)
                {| sn := sn_; value := value_; is_used := true |} Hn)
    as Hc.
  simpl in Hc. destruct (used_at (window s) (next s)); lia.
Qed.

Lemma ack_search_complete s sn_ j :
  oldest s < window_width s →
  matches_at (window s) sn_ j = true →
  ∃ i, ack_search s sn_ = Some i.
Proof.
  intros Ho Hm. pose proof (matches_at_lt _ _ _ Hm) as Hj.
  unfold ack_search.
  destruct (search_sn (window s) sn_ (oldest s)
              (window_width s - oldest s)) as [i|] eqn:E1; [by exists i|].
  destruct (search_sn (window s) sn_ 0 (oldest s)) as [i|] eqn:E2;
    [by exists i|].
  exfalso.
  destruct (decide (oldest s ≤ j)).
  - rewrite (search_sn_None _ _ _ _ E1 j) in Hm; [done|lia|].
    unfold window_width. lia.
  - rewrite (search_sn_None _ _ _ _ E2 j) in Hm; [done|lia|lia].
Qed.

(** X10. After an insertion, the scan of [c_ack_sn_wlsb] for the
    inserted sequence number finds an in-use entry carrying it: the
    entry just inserted, or an older one with the same number. *)
Theorem added_sn_is_found s sn_ value_ s' :
  wf_wlsb s →
  c_add_wlsb s sn_ value_ = Some s' →
  ∃ i e, ack_search s' sn_ = Some i ∧
         window s' !! i = Some e ∧
         is_used e = true ∧ sn e = sn_.
Proof.
  intros Hwf Ha.
  destruct (wf_add s sn_ value_ Hwf) as (s1 & Ha' & [Ho' _] & Hw).
  rewrite Ha in Ha'. injection Ha' as <-.
  assert (Hm : matches_at (window s') sn_ (next s) = true).
  { destruct (c_add_wlsb_overwrites _ _ _ _ Ha) as (Hl & _).
    unfold matches_at, entry_matches. rewrite Hl. simpl.
    apply Z.eqb_refl. }
  destruct (ack_search_complete s' sn_ (next s) Ho' Hm) as [i Hi].
  apply ack_search_Some in Hi as Hfm; [|done].
  destruct Hfm as (_ & Hmi & _).
  unfold matches_at, entry_matches in Hmi.
  destruct (window s' !! i) as [e|] eqn:Ei; [|done].
  apply andb_true_iff in Hmi as [Hu Hsn]. apply Z.eqb_eq in Hsn.
  by exists i, e.
Qed.

(** ** Acknowledgement *)

Lemma lookup_clear_range_cases n win lo j :
  clear_range win lo n !! j = win !! j ∨
  clear_range win lo n !! j = clear_used <$> win !! j.
Proof. rewrite lookup_clear_range. case_decide; [by right|by left]. Qed.

Lemma lookup_ack_mark_cases s index j :
  ack_mark s index !! j = window s !! j ∨
  ack_mark s index !! j = clear_used <$> window s !! j.
Proof.
  unfold ack_mark.
  destruct (oldest s =? index).
  { destruct (decide (j = oldest s)) as [->|Hne].
    - rewrite list_lookup_alter_eq. by right.
    - rewrite list_lookup_alter_ne by done. by left. }
  destruct (oldest s <? index); [apply lookup_clear_range_cases|].
  destruct (lookup_clear_range_cases index
              (clear_range (window s) (oldest s)
                 (window_width s - oldest s)) 0 j) as [->| ->];
    destruct (lookup_clear_range_cases (window_width s - oldest s)
                (window s) (oldest s) j) as [->| ->]; auto.
  right. by destruct (window s !! j).
Qed.

Lemma lookup_ack_cases s sn_ j :
  window (c_ack_sn_wlsb s sn_) !! j = window s !! j ∨
  window (c_ack_sn_wlsb s sn_) !! j = clear_used <$> window s !! j.
Proof.
  unfold c_ack_sn_wlsb. destruct (ack_search s sn_); [|by left].
  apply lookup_ack_mark_cases.
Qed.

Lemma count_used_cleared l : ∀ l',
  (∀ j, l' !! j = l !! j ∨ l' !! j = clear_used <$> l !! j) →
  count_used l' ≤ count_used l.
Proof.
  unfold count_used.
  induction l as [|e l IH]; intros l' Hall.
  - destruct l' as [|e' l']; [done|].
    destruct (Hall 0) as [H|H]; discriminate H.
  - destruct l' as [|e' l'].
    { destruct (Hall 0) as [H|H]; discriminate H. }
    specialize (IH l' (λ j, Hall (S j))). simpl.
    destruct (Hall 0) as [H|H]; simpl in H; injection H as ->; simpl.
    + destruct (is_used e); simpl; lia.
    + destruct (is_used e); simpl; lia.
Qed.

(** X11. An acknowledgement only clears in-use flags: every slot keeps
    its sequence number and its value, no slot not in use becomes in
    use, the window keeps its width and the number of in-use entries
    does not grow. *)
Theorem ack_only_clears s sn_ :
  (∀ j e', window (c_ack_sn_wlsb s sn_) !! j = Some e' →
     ∃ e, window s !! j = Some e ∧
          sn e' = sn e ∧ value e' = value e ∧
          (is_used e' = true → is_used e = true)) ∧
  window_width (c_ack_sn_wlsb s sn_) = window_width s ∧
  count_used (window (c_ack_sn_wlsb s sn_)) ≤ count_used (window s).
Proof.
  split; [|split].
  - intros j e' He'.
    destruct (lookup_ack_cases s sn_ j) as [H|H]; rewrite H in He'.
    + by exists e'.
    + destruct (window s !! j) as [e|]; [|done].
      injection He' as <-. by exists e.
  - unfold c_ack_sn_wlsb. destruct (ack_search s sn_); [|done].
    unfold window_width at 1. simpl. apply length_ack_mark.
  - apply count_used_cleared, lookup_ack_cases.
Qed.

(** X12. Acknowledging twice the sequence number of an entry that is
    neither the oldest nor in the last slot removes that entry: the
    first call keeps it and makes its slot the oldest, the second call
    finds it at [oldest] and clears it. *)
Theorem ack_twice_evicts s sn_ index :
  wf_wlsb s →
  first_match s sn_ index →
  index ≠ oldest s →
  index ≠ window_width s - 1 →
  used_at (window (c_ack_sn_wlsb s sn_)) index = true ∧
  used_at (window (c_ack_sn_wlsb (c_ack_sn_wlsb s sn_) sn_)) index
    = false.
Proof.
  intros [Ho _] Hfm Hne Hlast.
  rewrite (c_ack_sn_wlsb_found s sn_ index) by done.
  destruct Hfm as (Hi & Hm & _).
  set (s1 := c_ack_remove s index).
  assert (Hw1 : window_width s1 = window_width s).
  { unfold window_width at 1. simpl. apply length_ack_mark. }
  assert (Ho1 : oldest s1 = index).
  { unfold s1. rewrite oldest_c_ack_remove by done.
    by rewrite decide_False. }
  assert (Hk : window s1 !! index = window s !! index).
  { simpl. rewrite lookup_ack_mark by done.
    rewrite decide_False; [done|]. unfold on_the_way. lia. }
  assert (Hm1 : matches_at (window s1) sn_ index = true).
  { unfold matches_at in *. by rewrite Hk. }
  assert (Hfm1 : first_match s1 sn_ index).
  { split; [lia|]. split; [done|].
    intros j _ Hway. rewrite Ho1 in Hway. unfold on_the_way in Hway.
    lia. }
  split.
  - by apply matches_at_used in Hm1.
  - rewrite (c_ack_sn_wlsb_found s1 sn_ index) by (done || lia).
    unfold used_at. simpl. rewrite lookup_ack_mark by lia.
    rewrite decide_True by (left; lia).
    by destruct (window s1 !! index).
Qed.

(** ** Reachable states *)

(** X13. From creation on, whatever calls follow, every call returns
    and [oldest] and [next] stay inside the window: the assertion
    [next < window_width] of [c_add_wlsb] never fails. *)
Theorem indices_stay_in_window f bits_ C p_ b0 cs :
  0 < bits_ → 0 < C →
  ∃ m, run_from_create f bits_ C p_ b0 cs = Some m ∧
       oldest (m_wlsb m) < C ∧ next (m_wlsb m) < C.
Proof.
  intros Hb Hc. unfold run_from_create.
  destruct (wf_create bits_ C p_ Hb Hc) as (s & -> & Hwf & Hw).
  destruct (wf_run_calls f cs {| m_wlsb := s; m_bits_nr := b0 |} Hwf)
    as (m & Hr & [Ho Hn] & Hw').
  exists m. simpl in *. split; [done|]. lia.
Qed.

Lemma inserted_step f m c m' pre :
  (∀ e, e ∈ window (m_wlsb m) → is_used e = true →
        CallAdd (sn e) (value e) ∈ pre) →
  run_call f m c = Some m' →
  ∀ e, e ∈ window (m_wlsb m') → is_used e = true →
       CallAdd (sn e) (value e) ∈ pre ++ [c].
Proof.
  intros Hpre Hc e He Hu. apply elem_of_app.
  destruct c as [sn_ value_|value_|sn_]; simpl in Hc.
  - destruct (c_add_wlsb (m_wlsb m) sn_ value_) as [s'|] eqn:Ha; [|done].
    injection Hc as <-. simpl in He.
    destruct (c_add_wlsb_overwrites _ _ _ _ Ha) as (Hnew & Hold & _).
    apply list_elem_of_lookup in He as [j Hj].
    destruct (decide (j = next (m_wlsb m))) as [->|Hne].
    + rewrite Hnew in Hj. injection Hj as <-. right. simpl. left.
    + rewrite Hold in Hj by done. left.
      apply Hpre; [by eapply list_elem_of_lookup_2|done].
  - injection Hc as <-. left. by apply Hpre.
  - injection Hc as <-. simpl in He. left.
    apply list_elem_of_lookup in He as [j Hj].
    destruct (lookup_ack_cases (m_wlsb m) sn_ j) as [H|H];
      rewrite H in Hj.
    + apply Hpre; [by eapply list_elem_of_lookup_2|done].
    + destruct (window (m_wlsb m) !! j); [|done].
      injection Hj as <-. done.
Qed.

Lemma inserted_run f cs : ∀ m m' pre,
  (∀ e, e ∈ window (m_wlsb m) → is_used e = true →
        CallAdd (sn e) (value e) ∈ pre) →
  run_calls f m cs = Some m' →
  ∀ e, e ∈ window (m_wlsb m') → is_used e = true →
       CallAdd (sn e) (value e) ∈ pre ++ cs.
Proof.
  induction cs as [|c cs IH]; intros m m' pre Hpre; simpl.
  - intros [= <-]. rewrite app_nil_r. exact Hpre.
  - destruct (run_call f m c) as [m1|] eqn:Hc; [|done].
    intros Hr. rewrite cons_middle, app_assoc.
    eapply IH; [|exact Hr]. by eapply inserted_step.
Qed.

(** X14. In every state reached from creation, each in-use entry holds
    a sequence number and a value that some insertion of the run passed
    together: nothing else ever becomes a reference. *)
Theorem in_use_entries_were_inserted f bits_ C p_ b0 cs m :
  run_from_create f bits_ C p_ b0 cs = Some m →
  ∀ e, e ∈ window (m_wlsb m) → is_used e = true →
       CallAdd (sn e) (value e) ∈ cs.
Proof.
  unfold run_from_create.
  destruct (c_create_wlsb bits_ C p_) as [s|] eqn:Hc; [|done].
  intros Hr.
  apply (inserted_run f cs {| m_wlsb := s; m_bits_nr := b0 |} m []);
    [|exact Hr]. simpl.
  intros e He Hu. exfalso.
  apply (create_not_used _ _ _ _ Hc). by exists e.
Qed.

Lemma run_inv_next_walk s n :
  run_inv s n → next s = spec_next (window s) (oldest s).
Proof.
  intros ((Ho & _) & Hle & Hused & Hnext).
  unfold window_width in *.
  rewrite (spec_next_run (window s) (oldest s) n) by done.
  by rewrite (ack_next_run (window s) _ (oldest s) n).
Qed.

Lemma run_inv_next_used s n :
  run_inv s n →
  (used_at (window s) (next s) = true ↔
   ∀ j, j < window_width s → used_at (window s) j = true).
Proof.
  intros ((Ho & Hn) & Hle & Hused & Hnext). split.
  - intros Hu j Hj. apply Hused in Hu; [|done].
    apply Hused; [done|]. rewrite Hnext in Hu. ring_cases.
  - intros Hall. by apply Hall.
Qed.

(** X15. Through insertions, bit searches and plain acknowledgements
    (no match, or a first match neither at [oldest] nor at the last
    slot), [next] is always the slot the walk from [oldest] over the
    in-use slots ends on; so the slot an insertion overwrites is in use
    only when every slot of the window is in use. *)
Theorem plain_runs_next f bits_ C p_ b0 cs :
  plain_from_create f bits_ C p_ b0 cs = true →
  ∃ m, run_from_create f bits_ C p_ b0 cs = Some m ∧
       next (m_wlsb m) =
         spec_next (window (m_wlsb m)) (oldest (m_wlsb m)) ∧
       (used_at (window (m_wlsb m)) (next (m_wlsb m)) = true ↔
        ∀ j, j < C → used_at (window (m_wlsb m)) j = true).
Proof.
  unfold plain_from_create, run_from_create.
  destruct (c_create_wlsb bits_ C p_) as [s|] eqn:Hc; [|done].
  intros Hplain.
  assert (Hw : window_width s = C).
  { unfold c_create_wlsb in Hc.
    destruct ((0 <? bits_) && (0 <? C)); [|done].
    injection Hc as <-. apply length_replicate. }
  apply run_inv_create in Hc.
  assert (Hwf : wf_wlsb s) by apply Hc.
  destruct (wf_run_calls f cs {| m_wlsb := s; m_bits_nr := b0 |} Hwf)
    as (m0 & Hr0 & _ & Hw0).
  destruct (run_inv_plain_calls f cs {| m_wlsb := s; m_bits_nr := b0 |}
              0 Hc Hplain) as (m & n & Hr & Hinv).
  rewrite Hr in Hr0. injection Hr0 as <-. simpl in Hw0.
  exists m. split; [done|]. split.
  - by eapply run_inv_next_walk.
  - rewrite <- Hw, <- Hw0. by eapply run_inv_next_used.
Qed.

(** ** A run of insertions *)

Lemma run_calls_app f cs1 : ∀ cs2 m,
  run_calls f m (cs1 ++ cs2) =
    match run_calls f m cs1 with
    | Some m' => run_calls f m' cs2
    | None => None
    end.
Proof.
  induction cs1 as [|c cs1 IH]; intros cs2 m; simpl; [done|].
  destruct (run_call f m c); [apply IH|done].
Qed.

Lemma mod_sub_width k C : C ≤ k → (k - C) mod C = k mod C.
Proof.
  intros Hle. replace k with ((k - C) + 1 * C) at 2 by lia.
  by rewrite Nat.Div0.mod_add.
Qed.

Lemma mod_neq_near i k C :
  0 < C → i < k → k < i + C → i mod C ≠ k mod C.
Proof.
  intros HC Hik Hk Heq.
  pose proof (Nat.div_mod_eq i C) as Hi.
  pose proof (Nat.div_mod_eq k C) as Hk'.
  rewrite Heq in Hi.
  assert (i `div` C < k `div` C ∨ k `div` C ≤ i `div` C) as [Hlt|Hge]
    by lia; nia.
Qed.

Lemma holds_last_create bits_ C p_ s :
  c_create_wlsb bits_ C p_ = Some s → holds_last C [] s.
Proof.
  unfold c_create_wlsb.
  destruct (0 <? bits_); [|done].
  destruct (Nat.ltb_spec 0 C) as [HC|]; [|done]. simpl.
  intros [= <-]. unfold holds_last, window_width. simpl.
  rewrite length_replicate, Nat.Div0.mod_0_l.
  split; [done|]. split; [done|]. split; [done|]. split; [done|]. split.
  - intros j _ Hj. by apply lookup_replicate_2.
  - intros j e Hj Hu. apply lookup_replicate in Hj as [-> _]. done.
Qed.

Lemma holds_last_add C l s x :
  0 < C → holds_last C l s →
  ∃ s', c_add_wlsb s x.1 x.2 = Some s' ∧ holds_last C (l ++ [x]) s'.
Proof.
  intros HC (Hw & Hn & Ho & Hin & Hzero & Hfrom).
  set (k := length l) in *.
  assert (Hkm : k mod C < C) by (apply Nat.mod_upper_bound; lia).
  unfold c_add_wlsb. rewrite Hw, Hn.
  destruct (Nat.ltb_spec (k mod C) C); [|lia].
  eexists. split; [reflexivity|].
  unfold holds_last, window_width in *. simpl.
  rewrite length_insert, length_app. simpl. fold k.
  assert (Hused : used_at (window s) (k mod C) = (C <=? k)).
  { unfold used_at. destruct (Nat.leb_spec C k) as [Hge|Hlt].
    - destruct (lookup_lt_is_Some_2 l (k - C)) as [y Hy]; [lia|].
      rewrite <- mod_sub_width by done.
      rewrite (Hin (k - C) y Hy) by lia. done.
    - rewrite Nat.mod_small by done. by rewrite Hzero. }
  split; [done|]. split.
  { rewrite Nat.Div0.add_mod_idemp_l. done. }
  split.
  { rewrite Hused, Ho.
    destruct (Nat.leb_spec C k) as [Hge|Hlt].
    - destruct (Nat.leb_spec (k + 1) C); [lia|].
      destruct (Nat.leb_spec k C) as [Hle|Hgt].
      + assert (k = C) as -> by lia.
        by rewrite <- (Nat.Div0.add_mod_idemp_l C 1), Nat.Div0.mod_same.
      + by rewrite Nat.Div0.add_mod_idemp_l.
    - destruct (Nat.leb_spec k C); [|lia].
      destruct (Nat.leb_spec (k + 1) C); [done|lia]. }
  split.
  { intros i y Hy Hi.
    destruct (decide (i = k)) as [->|Hne].
    - rewrite list_lookup_middle in Hy by done. injection Hy as <-.
      apply list_lookup_insert_eq. lia.
    - assert (Hik : i < k).
      { apply lookup_lt_Some in Hy. rewrite length_app in Hy.
        simpl in Hy. fold k in Hy. lia. }
      rewrite lookup_app_l in Hy by done.
      rewrite list_lookup_insert_ne
        by (apply not_eq_sym, mod_neq_near; lia).
      apply Hin; [done|lia]. }
  split.
  { intros j Hj HjC.
    rewrite list_lookup_insert_ne.
    - apply Hzero; lia.
    - rewrite Nat.mod_small by lia. lia. }
  intros j e Hj Hu.
  destruct (decide (j = k mod C)) as [->|Hne].
  - rewrite list_lookup_insert_eq in Hj by lia. injection Hj as <-.
    exists k, x. split; [by apply list_lookup_middle|].
    split; [lia|]. done.
  - rewrite list_lookup_insert_ne in Hj by done.
    destruct (Hfrom j e Hj Hu) as (i & y & Hy & Hi & -> & ->).
    exists i, y.
    split; [by apply lookup_app_l_Some|].
    split; [|done].
    destruct (decide (k = i + C)) as [Heq|]; [|lia].
    exfalso. apply Hne. rewrite Heq.
    replace (i + C) with (i + 1 * C) by lia.
    by rewrite Nat.Div0.mod_add.
Qed.

Lemma holds_last_run f bits_ C p_ b0 l :
  0 < bits_ → 0 < C →
  ∃ m, run_from_create f bits_ C p_ b0 (add_calls l) = Some m ∧
       holds_last C l (m_wlsb m).
Proof.
  intros Hb HC. unfold run_from_create.
  destruct (wf_create bits_ C p_ Hb HC) as (s & Hc & _). rewrite Hc.
  induction l as [|x l IH] using rev_ind.
  - eexists. split; [reflexivity|]. simpl. by eapply holds_last_create.
  - destruct IH as (m & Hr & Hl).
    destruct (holds_last_add C l (m_wlsb m) x HC Hl) as (s' & Ha & Hl').
    exists {| m_wlsb := s'; m_bits_nr := m_bits_nr m |}.
    split; [|done].
    unfold add_calls. rewrite fmap_app, run_calls_app.
    fold (add_calls l). rewrite Hr. simpl. by rewrite Ha.
Qed.

(** X16. After a run of insertions into a new window of [C] slots, the
    window holds the last [C] inserted pairs and nothing else: the pair
    inserted in position [i] is in use in slot [i mod C] when it is
    among the last [C], every in-use entry is such a pair, untouched
    slots are as created, [next] is the number of insertions modulo [C]
    and [oldest] is 0 until the window wraps and [next] afterwards. *)
Theorem insertions_keep_last f bits_ C p_ b0 l :
  0 < bits_ → 0 < C →
  ∃ m, run_from_create f bits_ C p_ b0 (add_calls l) = Some m ∧
       holds_last C l (m_wlsb m).
Proof. apply holds_last_run. Qed.

(** X17. After a run of insertions into a new window of [C] slots, an
    entry older than the last [C] is gone: acknowledging a sequence
    number that none of the last [C] insertions carries finds nothing
    and leaves the object as it is. *)
Theorem evicted_sn_not_found f bits_ C p_ b0 l sn_ :
  0 < bits_ → 0 < C →
  (∀ i x, l !! i = Some x → length l ≤ i + C → x.1 ≠ sn_) →
  ∃ m, run_from_create f bits_ C p_ b0 (add_calls l) = Some m ∧
       ack_search (m_wlsb m) sn_ = None ∧
       c_ack_sn_wlsb (m_wlsb m) sn_ = m_wlsb m.
Proof.
  intros Hb HC Hsn.
  destruct (holds_last_run f bits_ C p_ b0 l Hb HC)
    as (m & Hr & (_ & _ & _ & _ & _ & Hfrom)).
  exists m. split; [done|].
  assert (Hno : no_match (m_wlsb m) sn_).
  { intros e He Hu. apply list_elem_of_lookup in He as [j Hj].
    destruct (Hfrom j e Hj Hu) as (i & x & Hx & Hi & _ & ->).
    simpl. by eapply Hsn. }
  split; [by apply ack_search_no_match|].
  unfold c_ack_sn_wlsb. by rewrite ack_search_no_match.
Qed.

(** ** More on g and on searching after an insertion *)

(** X18. The bound [bits_nr] of [g] only caps the search: with a
    smaller bound the result is the result for the larger bound, cut
    down to the smaller bound. *)
Theorem g_bound_caps f v_ref v p_ b b' :
  b ≤ b' →
  g f v_ref v p_ b = Nat.min b (g f v_ref v p_ b').
Proof.
  intros Hle.
  destruct (g_first_fit f v_ref v p_ b) as (H1 & H2 & H3).
  destruct (g_first_fit f v_ref v p_ b') as (H1' & H2' & H3').
  set (k := g f v_ref v p_ b) in *.
  set (k' := g f v_ref v p_ b') in *.
  destruct (decide (k' < b)) as [Hlt|Hge].
  - rewrite Nat.min_r by lia.
    destruct (decide (k < k')) as [Hkk|Hkk].
    + rewrite H2' in H3 by done. lapply H3; [done|lia].
    + destruct (decide (k' < k)) as [Hkk'|]; [|lia].
      rewrite H2 in H3' by done. lapply H3'; [done|lia].
  - rewrite Nat.min_l by lia.
    destruct (decide (k < b)) as [Hkb|]; [|lia].
    rewrite H2' in H3 by lia. lapply H3; [done|lia].
Qed.

(** X19. Right after an insertion the window is not empty:
    [c_get_k_wlsb] succeeds for every value, with a bit count of at most
    [bits]. *)
Theorem c_get_k_wlsb_after_add f s sn_ value_ s' v b :
  c_add_wlsb s sn_ value_ = Some s' →
  ∃ k, c_get_k_wlsb f s' v b = (true, k) ∧ k ≤ bits s.
Proof.
  intros Ha.
  destruct (c_add_wlsb_overwrites _ _ _ _ Ha) as (Hnew & _).
  assert (Hu : has_used (window s')).
  { exists (entry sn_ value_).
    split; [by eapply list_elem_of_lookup_2|done]. }
  assert (Hb : bits s' = bits s).
  { unfold c_add_wlsb in Ha.
    destruct (next s <? window_width s); [|done].
    by injection Ha as <-. }
  eexists. split; [by apply c_get_k_wlsb_used|].
  rewrite <- Hb. apply Nat.max_lub; apply g_le.
Qed.

(** ** The further properties at concrete windows *)

Lemma wrapped3_uint32 : uint32_window (window wlsb_wrapped3).
Proof.
  intros e He _. in_sample_window He; unfold is_uint32; simpl; lia.
Defined.

Lemma stats5_uint32 : uint32_window (window wlsb_stats5).
Proof.
  intros e He _. in_sample_window He; unfold is_uint32; simpl; lia.
Defined.

Lemma c_sum_wlsb_exact_witness :
  c_sum_wlsb wlsb_stats5 = sum_used (window wlsb_stats5).
Proof.
  apply (c_sum_wlsb_exact wlsb_stats5); [apply stats5_uint32|].
  vm_compute. discriminate.
Defined.

Lemma statistics_empty_window_witness :
  c_sum_wlsb wlsb_empty3 = 0%Z ∧ c_mean_wlsb wlsb_empty3 = 0%Z.
Proof.
  apply (statistics_empty_window wlsb_empty3).
  intros (e & He & Hu). in_sample_window He; discriminate Hu.
Defined.

Lemma c_mean_wlsb_between_witness :
  c_mean_wlsb wlsb_stats5 =
    (sum_used (window wlsb_stats5) `div`
       Z.of_nat (count_used (window wlsb_stats5)))%Z ∧
  (10 <= c_mean_wlsb wlsb_stats5 <= 30)%Z.
Proof.
  apply (c_mean_wlsb_between wlsb_stats5 10 30).
  - apply stats5_uint32.
  - exists (entry 1 10). split; [left|reflexivity].
  - vm_compute. discriminate.
  - split.
    + exists (entry 1 10). split; [left|]. split; reflexivity.
    + intros e He Hu. in_sample_window He; simpl; try lia; discriminate.
  - split.
    + exists (entry 3 30). split; [|split; reflexivity].
      right. right. left.
    + intros e He Hu. in_sample_window He; simpl; try lia; discriminate.
Defined.

Lemma c_get_k_wlsb_at_most_bits_witness : 2 ≤ bits wlsb_wrapped3.
Proof.
  apply (c_get_k_wlsb_at_most_bits f_rfc wlsb_wrapped3 103 0 2).
  reflexivity.
Defined.

Lemma wrapped3_extremes r :
  min_of_used (window wlsb_wrapped3) r ∨
  max_of_used (window wlsb_wrapped3) r →
  r = 101%Z ∨ r = 102%Z ∨ r = 103%Z.
Proof.
  intros Hr.
  assert (Hin : ∃ e, e ∈ window wlsb_wrapped3 ∧ value e = r).
  { destruct Hr as [[(e & He & _ & Hv) _]|[(e & He & _ & Hv) _]];
      by exists e. }
  destruct Hin as (e & He & <-).
  in_sample_window He; simpl; auto.
Defined.

Lemma wrapped3_min : min_of_used (window wlsb_wrapped3) 101.
Proof.
  split.
  - exists (entry 2 101). split; [right; left|]. split; reflexivity.
  - intros e He _. in_sample_window He; simpl; lia.
Defined.

Lemma wrapped3_max : max_of_used (window wlsb_wrapped3) 103.
Proof.
  split.
  - exists (entry 4 103). split; [left|]. split; reflexivity.
  - intros e He _. in_sample_window He; simpl; lia.
Defined.

Lemma c_get_k_wlsb_suits_both_extremes_witness :
  in_interval f_rfc 101 103 (p wlsb_wrapped3) 2 = true ∧
  in_interval f_rfc 103 103 (p wlsb_wrapped3) 2 = true.
Proof.
  assert (Hnest : ∀ r, min_of_used (window wlsb_wrapped3) r ∨
                       max_of_used (window wlsb_wrapped3) r →
                       nested_intervals f_rfc r 103 (p wlsb_wrapped3)
                         (bits wlsb_wrapped3)).
  { intros r Hr k Hk.
    destruct (wrapped3_extremes r Hr) as [->|[->| ->]];
      simpl in Hk;
      do 3 (destruct k as [|k]; [vm_compute; auto|]); lia. }
  split.
  - apply (c_get_k_wlsb_suits_both_extremes f_rfc wlsb_wrapped3 103 0 2
             wrapped3_uint32 Hnest); [reflexivity|simpl; lia|].
    left. apply wrapped3_min.
  - apply (c_get_k_wlsb_suits_both_extremes f_rfc wlsb_wrapped3 103 0 2
             wrapped3_uint32 Hnest); [reflexivity|simpl; lia|].
    right. apply wrapped3_max.
Defined.

Lemma c_get_k_wlsb_zero_bits_witness :
  c_get_k_wlsb f_rfc wlsb_single3 500 9 = (true, 0).
Proof.
  apply (c_get_k_wlsb_zero_bits f_rfc wlsb_single3 500 9).
  - intros e He _. in_sample_window He; unfold is_uint32; simpl; lia.
  - exists (entry 7 500). split; [left|reflexivity].
  - intros r Hr.
    assert (Hin : ∃ e, e ∈ window wlsb_single3 ∧ is_used e = true ∧
                       value e = r).
    { destruct Hr as [[(e & He & Hu & Hv) _]|[(e & He & Hu & Hv) _]];
        by exists e. }
    destruct Hin as (e & He & Hu & <-).
    in_sample_window He; try discriminate Hu. reflexivity.
Defined.

Lemma c_add_wlsb_count_witness :
  count_used
    [entry 1 10; entry 2 20; entry 3 30; entry 4 40; zero_entry] =
  (if used_at (window wlsb_stats5) (next wlsb_stats5)
   then count_used (window wlsb_stats5)
   else S (count_used (window wlsb_stats5))).
Proof.
  apply (c_add_wlsb_count wlsb_stats5 4 40
           {| window := [entry 1 10; entry 2 20; entry 3 30;
                         entry 4 40; zero_entry];
              oldest := 0; next := 4; bits := 4; p := 0 |}).
  reflexivity.
Defined.

Lemma added_sn_is_found_witness :
  ∃ i e,
    ack_search
      {| window := [entry 1 10; entry 2 20; entry 3 30;
                    entry 2 40; zero_entry];
         oldest := 0; next := 4; bits := 4; p := 0 |} 2 = Some i ∧
    [entry 1 10; entry 2 20; entry 3 30; entry 2 40; zero_entry] !! i
      = Some e ∧
    is_used e = true ∧ sn e = 2%Z.
Proof.
  apply (added_sn_is_found wlsb_stats5 2 40
           {| window := [entry 1 10; entry 2 20; entry 3 30;
                         entry 2 40; zero_entry];
              oldest := 0; next := 4; bits := 4; p := 0 |}).
  - unfold wf_wlsb, window_width. simpl. lia.
  - reflexivity.
Defined.

Lemma ack_twice_evicts_witness :
  used_at (window (c_ack_sn_wlsb wlsb_full3 2)) 1 = true ∧
  used_at (window (c_ack_sn_wlsb (c_ack_sn_wlsb wlsb_full3 2) 2)) 1
    = false.
Proof.
  apply (ack_twice_evicts wlsb_full3 2 1).
  - unfold wf_wlsb, window_width. simpl. lia.
  - unfold first_match, window_width, on_the_way. simpl.
    split; [lia|]. split; [reflexivity|].
    intros j Hj Hway. assert (j = 0) as -> by lia. reflexivity.
  - simpl. lia.
  - unfold window_width. simpl. lia.
Defined.

Lemma indices_stay_in_window_witness :
  ∃ m, run_from_create f_rfc 4 3 0 0
         [CallAdd 1 100; CallAdd 2 101; CallAck 1; CallAdd 3 102;
          CallAdd 4 103; CallAck 4; CallGetK 100] = Some m ∧
       oldest (m_wlsb m) < 3 ∧ next (m_wlsb m) < 3.
Proof. apply (indices_stay_in_window f_rfc 4 3 0 0); lia. Defined.

Lemma in_use_entries_were_inserted_witness :
  CallAdd 4 103 ∈
    [CallAdd 1 100; CallAdd 2 101; CallAdd 3 102; CallAdd 4 103].
Proof.
  apply (in_use_entries_were_inserted f_rfc 4 3 0 0
           [CallAdd 1 100; CallAdd 2 101; CallAdd 3 102; CallAdd 4 103]
           {| m_wlsb := wlsb_wrapped3; m_bits_nr := 0 |}
           eq_refl (entry 4 103)).
  - left.
  - reflexivity.
Defined.

Lemma plain_runs_next_witness :
  ∃ m, run_from_create f_rfc 4 3 0 0
         [CallAdd 1 100; CallAdd 2 101; CallAdd 3 102; CallAck 2;
          CallAdd 4 103] = Some m ∧
       next (m_wlsb m) =
         spec_next (window (m_wlsb m)) (oldest (m_wlsb m)) ∧
       (used_at (window (m_wlsb m)) (next (m_wlsb m)) = true ↔
        ∀ j, j < 3 → used_at (window (m_wlsb m)) j = true).
Proof. apply (plain_runs_next f_rfc 4 3 0 0). reflexivity. Defined.

Lemma insertions_keep_last_witness :
  ∃ m, run_from_create f_rfc 4 3 0 0
         (add_calls [(1, 100); (2, 101); (3, 102); (4, 103)]%Z)
       = Some m ∧
       holds_last 3 [(1, 100); (2, 101); (3, 102); (4, 103)]%Z
         (m_wlsb m).
Proof. apply (insertions_keep_last f_rfc 4 3 0 0); lia. Defined.

Lemma evicted_sn_not_found_witness :
  ∃ m, run_from_create f_rfc 4 3 0 0
         (add_calls [(1, 100); (2, 101); (3, 102); (4, 103)]%Z)
       = Some m ∧
       ack_search (m_wlsb m) 1 = None ∧
       c_ack_sn_wlsb (m_wlsb m) 1 = m_wlsb m.
Proof.
  apply (evicted_sn_not_found f_rfc 4 3 0 0
           [(1, 100); (2, 101); (3, 102); (4, 103)]%Z 1); [lia|lia|].
  intros i x Hx Hi. simpl in Hi.
  destruct i as [|[|[|[|i]]]]; simpl in Hx; try lia;
    try discriminate Hx; injection Hx as <-; simpl; lia.
Defined.

Lemma g_bound_caps_witness :
  g f_rfc 101 103 0 1 = Nat.min 1 (g f_rfc 101 103 0 4).
Proof. apply (g_bound_caps f_rfc 101 103 0 1 4). lia. Defined.

Lemma c_get_k_wlsb_after_add_witness :
  ∃ k, c_get_k_wlsb f_rfc wlsb_wrapped3 103 0 = (true, k) ∧
       k ≤ bits wlsb_full3.
Proof.
  apply (c_get_k_wlsb_after_add f_rfc wlsb_full3 4 103 wlsb_wrapped3).
  reflexivity.
Defined.
